(** * Smart-Mat-Maze: the ray grid puzzle of [grid-test.js]

    A shallow embedding of the [RayGridGame] class: the grid and its
    mutation operations ([toggleCell], [resetPlayerObstacles]), the ray
    tracer ([traceRay] and its helpers) and the signal decoder
    ([processSignal] with its single-9 timer).  DOM rendering, the
    countdown clock, scoring and the Firebase feed are left out: they
    neither read nor write the state the properties below talk about. *)

From stdpp Require Import base decidable option numbers countable list gmap.

Open Scope Z_scope.

(** ** Data model *)

(** [this.state[r][c]]: 0 = empty, 1 = player obstacle, 2 = fixed obstacle. *)
Inductive Cell := Empty | PlayerObstacle | FixedObstacle.

#[export] Instance Cell_eq_dec : EqDecision Cell.
Proof. solve_decision. Defined.

(** The numeric code the source stores for a cell kind. *)
Definition cellCode (v : Cell) : Z :=
  match v with Empty => 0 | PlayerObstacle => 1 | FixedObstacle => 2 end.

(** Directions are the strings "N", "S", "E", "W" of the source. *)
Module Dir.
Inductive t := N | S | E | W.
End Dir.

#[export] Instance Dir_eq_dec : EqDecision Dir.t.
Proof. solve_decision. Defined.

Definition Dir_to_nat (d : Dir.t) : nat :=
  match d with Dir.N => 0 | Dir.S => 1 | Dir.E => 2 | Dir.W => 3 end%nat.

Definition Dir_of_nat (n : nat) : option Dir.t :=
  match n with
  | 0 => Some Dir.N | 1 => Some Dir.S | 2 => Some Dir.E | 3 => Some Dir.W
  | _ => None
  end%nat.

#[export] Instance Dir_countable : Countable Dir.t.
Proof.
  apply (inj_countable Dir_to_nat Dir_of_nat).
  intros []; reflexivity.
Defined.

(** Boundary sides are the strings "top", "bottom", "left", "right".  Any
    other string makes [entryStartOutside] throw "Invalid entry side";
    the enumeration leaves those out. *)
Module Side.
Inductive t := top | bottom | left | right.
End Side.

#[export] Instance Side_eq_dec : EqDecision Side.t.
Proof. solve_decision. Defined.

Module BoundaryRef.
Record t := mk { side : Side.t; index : Z }.
End BoundaryRef.

#[export] Instance BoundaryRef_eq_dec : EqDecision BoundaryRef.t.
Proof. solve_decision. Defined.

(** [this.level]: the entry and the exit (the fixed obstacles of the level
    are only read by the constructor, which writes them into the grid). *)
Module Level.
Record t := mk { entry : BoundaryRef.t; exit : BoundaryRef.t }.
End Level.

(** The matrix [this.state], a list of rows. *)
Abbreviation Grid := (list (list Cell)).

(** Entries of [this.signalBuffer]. *)
Module RawSignal.
Record t := mk { signal : Z; timestamp : Z }.
End RawSignal.

#[export] Instance RawSignal_eq_dec : EqDecision RawSignal.t.
Proof. solve_decision. Defined.

(** The mutable fields of the game object that the modelled methods touch.
    [signal9Timer] is [Some delay] while a [setTimeout] handle is stored and
    [None] when the field is [null]. *)
Record Game := mkGame {
  state : Grid;
  coverVisible : bool;
  signalBuffer : list RawSignal.t;
  signal9Timer : option Z;
  fireRayCount : nat
}.

Definition with_state (g : Game) (st : Grid) : Game :=
  mkGame st (coverVisible g) (signalBuffer g) (signal9Timer g) (fireRayCount g).

Definition with_signalBuffer (g : Game) (buf : list RawSignal.t) : Game :=
  mkGame (state g) (coverVisible g) buf (signal9Timer g) (fireRayCount g).

Definition with_signal9Timer (g : Game) (tm : option Z) : Game :=
  mkGame (state g) (coverVisible g) (signalBuffer g) tm (fireRayCount g).

Definition with_fireRayCount (g : Game) (n : nat) : Game :=
  mkGame (state g) (coverVisible g) (signalBuffer g) (signal9Timer g) n.

(** ** Grid access *)

(** The read [this.state[r][c]].  [None] stands for an access that leaves
    the stored matrix: there the source throws (missing row) or reads
    [undefined] (missing column).  Every caller checks the bounds first, so
    on an N x N matrix the read always succeeds. *)
Definition cellAt (st : Grid) (r c : Z) : option Cell :=
  if decide (0 ≤ r ∧ 0 ≤ c)
  then row ← st !! Z.to_nat r; row !! Z.to_nat c
  else None.

(** The write [this.state[r][c] = v], used only after a successful read of
    the same cell. *)
Definition setCell (st : Grid) (r c : Z) (v : Cell) : Grid :=
  alter (λ row, <[Z.to_nat c := v]> row) (Z.to_nat r) st.

(** An N x N matrix. *)
Definition wf_grid (N : nat) (st : Grid) : Prop :=
  length st = N ∧ Forall (λ row, length row = N) st.

(** ** Cell toggling *)

Definition toggleCell (g : Game) (r c : Z) : option Game :=
  v ← cellAt (state g) r c;
  if coverVisible g && bool_decide (v = FixedObstacle) then
    (* fixed obstacle immutable when cover is on *)
    Some g
  else if negb (coverVisible g) then
    match v with
    | FixedObstacle => Some (with_state g (setCell (state g) r c Empty))
    | Empty => Some (with_state g (setCell (state g) r c FixedObstacle))
    | PlayerObstacle => Some (with_state g (setCell (state g) r c Empty))
    end
  else
    Some (with_state g
            (setCell (state g) r c
               (if bool_decide (v = PlayerObstacle) then Empty else PlayerObstacle))).

(** ** Resetting the player obstacles *)

(** One pass of the inner loop body at [(r, c)]. *)
Definition resetAt (st : Grid) (r c : nat) : option Grid :=
  v ← cellAt st (Z.of_nat r) (Z.of_nat c);
  Some (if bool_decide (v = PlayerObstacle)
        then setCell st (Z.of_nat r) (Z.of_nat c) Empty
        else st).

(** [for (let c = 0; c < N; c++)] at row [r]. *)
Definition resetRow (N : nat) (st : Grid) (r : nat) : option Grid :=
  foldl (λ acc c, st' ← acc; resetAt st' r c) (Some st) (seq 0 N).

(** [for (let r = 0; r < N; r++)]. *)
Definition resetRows (N : nat) (st : Grid) : option Grid :=
  foldl (λ acc r, st' ← acc; resetRow N st' r) (Some st) (seq 0 N).

Definition resetPlayerObstacles (N : nat) (g : Game) : option Game :=
  st' ← resetRows N (state g);
  Some (with_state g st').

(** What the reset does to one cell. *)
Definition resetCell (v : Cell) : Cell :=
  match v with PlayerObstacle => Empty | _ => v end.

(** ** Ray logic *)

Inductive Outcome := WIN | LOSE.

(** The [reason] strings of the source, one constructor per template:
    - [ExitedThroughExit]: "Ray exited through the designated exit."
    - [ExitedElsewhere]: "Ray exited at SIDE @ index, not the target exit."
    - [NeverEntered]: "Ray never entered the grid (invalid entry config)."
    - [LoopDetected]: "Loop detected (ray revisited the same cell with the
      same direction)."
    - [StepLimitReached]: "Step limit reached (likely looping)." *)
Inductive Reason :=
  | ExitedThroughExit
  | ExitedElsewhere (exitInfo : BoundaryRef.t)
  | NeverEntered
  | LoopDetected
  | StepLimitReached.

Module PathEntry.
Record t := mk { r : Z; c : Z; dirBeforeCell : Dir.t; cellType : Cell }.
End PathEntry.

Module SimulationResult.
Record t := mk {
  outcome : Outcome;
  exitInfo : option BoundaryRef.t;
  path : list PathEntry.t;
  reason : Reason
}.
End SimulationResult.

(** The key [`${r},${c},${dir}`] of the [visited] set. *)
Abbreviation Key := (Z * Z * Dir.t)%type.

(** The local variables of [traceRay] that live across loop iterations. *)
Module Ray.
Record t := mk {
  r : Z;
  c : Z;
  dir : Dir.t;
  visited : gset Key;
  path : list PathEntry.t
}.
End Ray.

(** What one pass through the body of the [while] loop does. *)
Inductive StepResult :=
  | Continue (s : Ray.t)
  | Return (res : SimulationResult.t).

Definition dirToDelta (dir : Dir.t) : Z * Z :=
  match dir with
  | Dir.N => (-1, 0)
  | Dir.S => (1, 0)
  | Dir.E => (0, 1)
  | Dir.W => (0, -1)
  end.

Definition rotateCCW (dir : Dir.t) : Dir.t :=
  (* N -> W -> S -> E -> N *)
  match dir with
  | Dir.N => Dir.W
  | Dir.W => Dir.S
  | Dir.S => Dir.E
  | Dir.E => Dir.N
  end.

Definition maxSteps : nat := 512.

Section RayLogic.
Variable N : nat.
Variable level : Level.t.

Definition isInside (r c : Z) : bool :=
  (0 <=? r) && (r <? Z.of_nat N) && (0 <=? c) && (c <? Z.of_nat N).

Definition entryStartOutside : Z * Z * Dir.t :=
  let side := BoundaryRef.side (Level.entry level) in
  let index := BoundaryRef.index (Level.entry level) in
  match side with
  | Side.left => (index, -1, Dir.E)
  | Side.right => (index, Z.of_nat N, Dir.W)
  | Side.top => (-1, index, Dir.S)
  | Side.bottom => (Z.of_nat N, index, Dir.N)
  end.

(** [None] is the throw "Expected outside". *)
Definition computeExitSideAndIndex (lastInsideR lastInsideC nextR nextC : Z)
  : option BoundaryRef.t :=
  if nextR <? 0 then Some (BoundaryRef.mk Side.top lastInsideC)
  else if Z.of_nat N <=? nextR then Some (BoundaryRef.mk Side.bottom lastInsideC)
  else if nextC <? 0 then Some (BoundaryRef.mk Side.left lastInsideR)
  else if Z.of_nat N <=? nextC then Some (BoundaryRef.mk Side.right lastInsideR)
  else None.

Definition isObstacle (cellVal : Cell) : bool :=
  bool_decide (cellVal = PlayerObstacle) || bool_decide (cellVal = FixedObstacle).

(** The body of the [while] loop of [traceRay]. *)
Definition traceStep (st : Grid) (s : Ray.t) : option StepResult :=
  let '(dr, dc) := dirToDelta (Ray.dir s) in
  let nr := Ray.r s + dr in
  let nc := Ray.c s + dc in
  if negb (isInside nr nc) then
    if isInside (Ray.r s) (Ray.c s) then
      exitInfo ← computeExitSideAndIndex (Ray.r s) (Ray.c s) nr nc;
      let win := bool_decide (exitInfo = Level.exit level) in
      Some (Return (SimulationResult.mk
                      (if win then WIN else LOSE)
                      (Some exitInfo)
                      (Ray.path s)
                      (if win then ExitedThroughExit else ExitedElsewhere exitInfo)))
    else
      Some (Return (SimulationResult.mk LOSE None (Ray.path s) NeverEntered))
  else
    let key : Key := (nr, nc, Ray.dir s) in
    if decide (key ∈ Ray.visited s) then
      Some (Return (SimulationResult.mk LOSE None (Ray.path s) LoopDetected))
    else
      cellVal ← cellAt st nr nc;
      Some (Continue (Ray.mk nr nc
                        (if isObstacle cellVal then rotateCCW (Ray.dir s) else Ray.dir s)
                        ({[ key ]} ∪ Ray.visited s)
                        (Ray.path s ++ [PathEntry.mk nr nc (Ray.dir s) cellVal]))).

(** [while (steps++ < maxSteps) { ... }] followed by the step-limit
    return; [fuel] is [maxSteps - steps]. *)
Fixpoint traceLoop (st : Grid) (fuel : nat) (s : Ray.t) : option SimulationResult.t :=
  match fuel with
  | O => Some (SimulationResult.mk LOSE None (Ray.path s) StepLimitReached)
  | S fuel' =>
      match traceStep st s with
      | None => None
      | Some (Return res) => Some res
      | Some (Continue s') => traceLoop st fuel' s'
      end
  end.

Definition traceStart : Ray.t :=
  let '(r, c, dir) := entryStartOutside in
  Ray.mk r c dir ∅ [].

(** [None]: a grid access inside the trace left the stored matrix, which
    happens only on a matrix that is not N x N. *)
Definition traceRay (st : Grid) : option SimulationResult.t :=
  traceLoop st maxSteps traceStart.

(** *** The ray without the memo

    The position and heading after each move, computed from the grid
    alone, with neither the [visited] memo nor the step ceiling. *)
Definition advance (st : Grid) (p : Z * Z * Dir.t) : Z * Z * Dir.t :=
  let '(r, c, dir) := p in
  let '(dr, dc) := dirToDelta dir in
  let nr := r + dr in
  let nc := c + dc in
  match cellAt st nr nc with
  | Some cellVal => (nr, nc, if isObstacle cellVal then rotateCCW dir else dir)
  | None => (nr, nc, dir)
  end.

(** The state of the ray after [k] moves from [p]. *)
Fixpoint rayAfter (st : Grid) (k : nat) (p : Z * Z * Dir.t) : Z * Z * Dir.t :=
  match k with
  | O => p
  | S k' => rayAfter st k' (advance st p)
  end.

(** The [(row, col, direction)] triple of move number [i] (counted from
    0) from [p]: the cell it lands on and the heading on the way in. *)
Definition enteredAt (st : Grid) (p : Z * Z * Dir.t) (i : nat) : Key :=
  ((rayAfter st (S i) p).1.1, (rayAfter st (S i) p).1.2, (rayAfter st i p).2).

(** The ray is in the grid after [k] moves from [p]. *)
Definition insideAfter (st : Grid) (p : Z * Z * Dir.t) (k : nat) : Prop :=
  isInside (rayAfter st k p).1.1 (rayAfter st k p).1.2 = true.

(** The path entry that move number [i] appends. *)
Definition entryAt (st : Grid) (p : Z * Z * Dir.t) (i : nat) : PathEntry.t :=
  let r := (rayAfter st (S i) p).1.1 in
  let c := (rayAfter st (S i) p).1.2 in
  PathEntry.mk r c (rayAfter st i p).2 (default Empty (cellAt st r c)).

(** The first [k] moves stay in the grid, read stored cells and enter
    [k] different triples. *)
Definition prefix_ok (st : Grid) (p : Z * Z * Dir.t) (k : nat) : Prop :=
  (∀ i, (i < k)%nat →
        insideAfter st p (S i)
        ∧ is_Some (cellAt st (rayAfter st (S i) p).1.1 (rayAfter st (S i) p).1.2))
  ∧ (∀ i j, (i < j < k)%nat → enteredAt st p i ≠ enteredAt st p j).

(** The loop invariant of [traceRay] after [k] passes. *)
Record trace_inv (st : Grid) (p : Z * Z * Dir.t) (k : nat) (s : Ray.t) : Prop := {
  inv_ray : (Ray.r s, Ray.c s, Ray.dir s) = rayAfter st k p;
  inv_path : Ray.path s = entryAt st p <$> seq 0 k;
  inv_visited : ∀ key, key ∈ Ray.visited s ↔ ∃ i, (i < k)%nat ∧ key = enteredAt st p i;
  inv_prefix : prefix_ok st p k
}.

(** The four ways the trace ends after [k] completed passes. *)
Inductive trace_ends (st : Grid) (p : Z * Z * Dir.t) (k : nat)
  : SimulationResult.t → Prop :=
  | ends_exit exitInfo :
      insideAfter st p k →
      ¬ insideAfter st p (S k) →
      computeExitSideAndIndex
        (rayAfter st k p).1.1 (rayAfter st k p).1.2
        ((rayAfter st k p).1.1 + (dirToDelta (rayAfter st k p).2).1)
        ((rayAfter st k p).1.2 + (dirToDelta (rayAfter st k p).2).2)
        = Some exitInfo →
      trace_ends st p k
        (SimulationResult.mk
           (if bool_decide (exitInfo = Level.exit level) then WIN else LOSE)
           (Some exitInfo)
           (entryAt st p <$> seq 0 k)
           (if bool_decide (exitInfo = Level.exit level)
            then ExitedThroughExit else ExitedElsewhere exitInfo))
  | ends_never :
      ¬ insideAfter st p k →
      ¬ insideAfter st p (S k) →
      trace_ends st p k
        (SimulationResult.mk LOSE None (entryAt st p <$> seq 0 k) NeverEntered)
  | ends_loop i :
      insideAfter st p (S k) →
      (i < k)%nat →
      enteredAt st p i = enteredAt st p k →
      trace_ends st p k
        (SimulationResult.mk LOSE None (entryAt st p <$> seq 0 k) LoopDetected)
  | ends_limit :
      k = maxSteps →
      trace_ends st p k
        (SimulationResult.mk LOSE None (entryAt st p <$> seq 0 k) StepLimitReached).
End RayLogic.

(** ** Signal decoder *)

(** The game methods [processSignal] and the timer callback invoke. *)
Inductive Command :=
  | ToggleCell (r c : Z)
  | FireRay
  | ResetObstacles.

#[export] Instance Command_eq_dec : EqDecision Command.
Proof. solve_decision. Defined.

(** What reaches the decoder: a signal handed to [processSignal], or the
    pending [setTimeout] callback coming due. *)
Inductive Event :=
  | Signal (signal timestamp : Z)
  | Signal9TimerFires.

(** The synchronous effect of [fireRay()] on the modelled fields.  The
    trace it starts and the animation that follows do not feed back into
    the decoder; the [animating] lock, which makes [fireRay()] return at
    once and the feed listener skip signals during an animation, is not
    modelled. *)
Definition fireRay (g : Game) : Game :=
  with_fireRayCount g (S (fireRayCount g)).

Section SignalDecoder.
Variable N : nat.
Variable signalTimeoutMs : Z.

(** The arrow function handed to [setTimeout]. *)
Definition signal9TimerCallback (g : Game) : Game * list Command :=
  (* Check if still only one 9 in buffer (no second 9 arrived) *)
  let current9s := filter (λ item, RawSignal.signal item = 9) (signalBuffer g) in
  if decide (length current9s = 1%nat) then
    let g1 := with_signalBuffer g
                (filter (λ item, RawSignal.signal item ≠ 9) (signalBuffer g)) in
    let g2 := fireRay g1 in
    (with_signal9Timer g2 None, [FireRay])
  else
    (with_signal9Timer g None, []).

(** [processSignal(signal, timestamp)]: the new game and the methods it
    called, in order.  [None] is a throw out of a grid access. *)
Definition processSignal (g : Game) (signal timestamp : Z)
  : option (Game * list Command) :=
  if decide (signal = 9) then
    (* Clear any pending single 9 timer *)
    let g := match signal9Timer g with
             | Some _ => with_signal9Timer g None
             | None => g
             end in
    let now := timestamp in
    let recent9 :=
      filter (λ item, RawSignal.signal item = 9
                      ∧ now - RawSignal.timestamp item ≤ signalTimeoutMs)
             (signalBuffer g) in
    if decide (0 < length recent9)%nat then
      let g := with_signalBuffer g
                 (filter (λ item, RawSignal.signal item ≠ 9) (signalBuffer g)) in
      g ← resetPlayerObstacles N g;
      Some (g, [ResetObstacles])
    else
      let g := with_signalBuffer g
                 (signalBuffer g ++ [RawSignal.mk signal timestamp]) in
      let g := with_signal9Timer g (Some signalTimeoutMs) in
      Some (g, [])
  else
    let now := timestamp in
    let g := with_signalBuffer g
               (filter (λ item, now - RawSignal.timestamp item ≤ signalTimeoutMs
                                ∧ RawSignal.signal item ≠ 9)
                       (signalBuffer g)) in
    let g := with_signalBuffer g
               (signalBuffer g ++ [RawSignal.mk signal timestamp]) in
    let coordinateSignals :=
      filter (λ item, RawSignal.signal item ≠ 9) (signalBuffer g) in
    if decide (2 ≤ length coordinateSignals)%nat then
      match drop (length coordinateSignals - 2) coordinateSignals with
      | [first; second] =>
          let timeDiff := RawSignal.timestamp second - RawSignal.timestamp first in
          if decide (timeDiff ≤ signalTimeoutMs ∧ 0 ≤ timeDiff) then
            let r := RawSignal.signal first - 1 in
            let c := RawSignal.signal second - 1 in
            if decide (0 ≤ r ∧ r < Z.of_nat N ∧ 0 ≤ c ∧ c < Z.of_nat N) then
              g ← toggleCell g r c;
              let g := with_signalBuffer g
                         (filter (λ item, RawSignal.signal item = 9) (signalBuffer g)) in
              Some (g, [ToggleCell r c])
            else
              let g := with_signalBuffer g
                         (filter (λ item, RawSignal.signal item = 9) (signalBuffer g)) in
              Some (g, [])
          else
            let g := with_signalBuffer g
                       (filter (λ item, RawSignal.signal item = 9) (signalBuffer g)
                        ++ [second]) in
            Some (g, [])
      | _ => None
      end
    else
      Some (g, []).

(** A cleared or already run timer has no callback left to run. *)
Definition onEvent (g : Game) (ev : Event) : option (Game * list Command) :=
  match ev with
  | Signal signal timestamp => processSignal g signal timestamp
  | Signal9TimerFires =>
      match signal9Timer g with
      | Some _ => Some (signal9TimerCallback g)
      | None => Some (g, [])
      end
  end.

(** The decoder run over a sequence of events, with everything it emitted. *)
Fixpoint run (g : Game) (evs : list Event) : option (Game * list Command) :=
  match evs with
  | [] => Some (g, [])
  | ev :: evs' =>
      '(g1, out1) ← onEvent g ev;
      '(g2, out2) ← run g1 evs';
      Some (g2, out1 ++ out2)
  end.
End SignalDecoder.

(** ** The reference level *)

Definition theN : nat := 8.

Definition theLevel : Level.t :=
  Level.mk (BoundaryRef.mk Side.left 3) (BoundaryRef.mk Side.bottom 5).

Definition fixedObstacles : list (Z * Z) :=
  [(0, 1); (1, 5); (2, 3); (3, 6); (4, 6); (5, 2); (6, 4); (6, 6)].

Definition emptyGrid (N : nat) : Grid := replicate N (replicate N Empty).

(** The constructor: an all-empty matrix with the fixed obstacles marked. *)
Definition initialState : Grid :=
  foldl (λ st rc, setCell st rc.1 rc.2 FixedObstacle) (emptyGrid theN) fixedObstacles.

Definition theTimeout : Z := 3000.

Definition newGame : Game := mkGame initialState false [] None 0.


(** The triple a path entry stands for in the [visited] memo. *)
Definition keyOf (e : PathEntry.t) : Key :=
  (PathEntry.r e, PathEntry.c e, PathEntry.dirBeforeCell e).

(** The boundary a ray heading [dir] leaves through. *)
Definition sideOfDir (dir : Dir.t) : Side.t :=
  match dir with
  | Dir.N => Side.top
  | Dir.S => Side.bottom
  | Dir.E => Side.right
  | Dir.W => Side.left
  end.

(** A game in play mode with two player obstacles on the reference level. *)
Definition playGame : Game :=
  mkGame (setCell (setCell initialState 3 3 PlayerObstacle) 0 0 PlayerObstacle)
         true [] None 0.

(** Three obstacles that send the ray of the reference entry around a
    corner and back across its own track. *)
Definition crossingState : Grid :=
  setCell (setCell (setCell (emptyGrid theN) 3 5 FixedObstacle) 1 5 FixedObstacle)
          1 3 PlayerObstacle.

(** The heading of the ray once it has entered the cell of a path entry. *)
Definition dirAfter (e : PathEntry.t) : Dir.t :=
  if isObstacle (PathEntry.cellType e)
  then rotateCCW (PathEntry.dirBeforeCell e)
  else PathEntry.dirBeforeCell e.

(** The reference game after the signal 3 at time 0: one coordinate signal
    waits for its partner. *)
Definition pendingGame : Game :=
  mkGame initialState false [RawSignal.mk 3 0] None 0.

(** ** Level helpers *)

(** The border cell the entry opens onto. *)
Definition getEntryCell (N : nat) (level : Level.t) : Z * Z :=
  let side := BoundaryRef.side (Level.entry level) in
  let index := BoundaryRef.index (Level.entry level) in
  match side with
  | Side.left => (index, 0)
  | Side.right => (index, Z.of_nat N - 1)
  | Side.top => (0, index)
  | Side.bottom => (Z.of_nat N - 1, index)
  end.

(** The border cell the exit opens onto. *)
Definition getExitCell (N : nat) (level : Level.t) : Z * Z :=
  let side := BoundaryRef.side (Level.exit level) in
  let index := BoundaryRef.index (Level.exit level) in
  match side with
  | Side.left => (index, 0)
  | Side.right => (index, Z.of_nat N - 1)
  | Side.top => (0, index)
  | Side.bottom => (Z.of_nat N - 1, index)
  end.

(** The boundary across the grid from [side]. *)
Definition oppositeSide (side : Side.t) : Side.t :=
  match side with
  | Side.left => Side.right
  | Side.right => Side.left
  | Side.top => Side.bottom
  | Side.bottom => Side.top
  end.

(** ** Clearing the fixed obstacles *)

(** The two status lines of [clearFixedObstacles]: the refusal in play
    mode, and the count of cleared cells in edit mode. *)
Inductive ClearStatus :=
  | CannotClear
  | Cleared (clearedCount : nat).

(** One pass of the inner loop body at [(r, c)], on the matrix and the
    running [clearedCount]. *)
Definition clearFixedAt (acc : Grid * nat) (r c : nat) : option (Grid * nat) :=
  v ← cellAt acc.1 (Z.of_nat r) (Z.of_nat c);
  Some (if bool_decide (v = FixedObstacle)
        then (setCell acc.1 (Z.of_nat r) (Z.of_nat c) Empty, S acc.2)
        else acc).

Definition clearFixedRow (N : nat) (acc : Grid * nat) (r : nat) : option (Grid * nat) :=
  foldl (λ a c, x ← a; clearFixedAt x r c) (Some acc) (seq 0 N).

Definition clearFixedRows (N : nat) (acc : Grid * nat) : option (Grid * nat) :=
  foldl (λ a r, x ← a; clearFixedRow N x r) (Some acc) (seq 0 N).

Definition clearFixedObstacles (N : nat) (g : Game) : option (Game * ClearStatus) :=
  if coverVisible g then
    (* Only works in Edit Mode (when cover is off) *)
    Some (g, CannotClear)
  else
    '(st', clearedCount) ← clearFixedRows N (state g, 0%nat);
    Some (with_state g st', Cleared clearedCount).

(** What the clearing does to one cell. *)
Definition clearCell (v : Cell) : Cell :=
  match v with FixedObstacle => Empty | _ => v end.

(** ** Counting the player obstacles *)

Definition countPlayerAt (st : Grid) (count : nat) (r c : nat) : option nat :=
  v ← cellAt st (Z.of_nat r) (Z.of_nat c);
  Some (if bool_decide (v = PlayerObstacle) then S count else count).

Definition countPlayerRow (N : nat) (st : Grid) (count : nat) (r : nat) : option nat :=
  foldl (λ a c, x ← a; countPlayerAt st x r c) (Some count) (seq 0 N).

Definition countPlayerObstacles (N : nat) (g : Game) : option nat :=
  foldl (λ a r, x ← a; countPlayerRow N (state g) x r) (Some 0%nat) (seq 0 N).

(** The cells of a matrix of one kind, counted over the rows. *)
Definition cellsOfKind (kind : Cell) (st : Grid) : nat :=
  length (filter (λ v, v = kind) (concat st)).

(** Every (row, col, direction) triple of an N x N grid. *)
Definition allKeys (N : nat) : list Key :=
  list_prod (list_prod (seqZ 0 (Z.of_nat N)) (seqZ 0 (Z.of_nat N)))
            [Dir.N; Dir.S; Dir.E; Dir.W].

(** ** Mode switch and countdown *)

(** The timer fields of the game object.  [timerInterval] is [true] while
    a [setInterval] handle is stored; [failureModal] is [true] while the
    failure modal carries the class "active"; [startTime] is [None] for
    [null]. *)
Record Clock := mkClock {
  timerSeconds : Z;
  timerInitialSeconds : Z;
  timerInterval : bool;
  gameWon : bool;
  startTime : option Z;
  failureModal : bool
}.

Definition stopTimer (k : Clock) : Clock :=
  if timerInterval k
  then mkClock (timerSeconds k) (timerInitialSeconds k) false (gameWon k)
               (startTime k) (failureModal k)
  else k.

(** [startTimer()]; [now] is the value of [Date.now()].  Clearing a live
    interval and storing the new one both leave [timerInterval] set. *)
Definition startTimer (now : Z) (g : Game) (k : Clock) : Game * Clock :=
  (with_fireRayCount g 0,
   mkClock (timerInitialSeconds k) (timerInitialSeconds k) true false
           (Some now) (failureModal k)).

Definition resetTimer (g : Game) (k : Clock) : Game * Clock :=
  let k := stopTimer k in
  (with_fireRayCount g 0,
   mkClock (timerInitialSeconds k) (timerInitialSeconds k) (timerInterval k) false
           None (failureModal k)).

(** The arrow function handed to [setInterval]; a cleared interval has no
    callback left to run. *)
Definition timerTick (k : Clock) : Clock :=
  if timerInterval k then
    let k := mkClock (timerSeconds k - 1) (timerInitialSeconds k) (timerInterval k)
                     (gameWon k) (startTime k) (failureModal k) in
    if decide (timerSeconds k ≤ 0) then
      let k := stopTimer k in
      if negb (gameWon k)
      then mkClock (timerSeconds k) (timerInitialSeconds k) (timerInterval k)
                   (gameWon k) (startTime k) true
      else k
    else k
  else k.

(** What [fireRay()] does with the outcome once the animation is over. *)
Definition fireRayOutcome (outcome : Outcome) (k : Clock) : Clock :=
  match outcome with
  | WIN =>
      stopTimer (mkClock (timerSeconds k) (timerInitialSeconds k) (timerInterval k)
                         true (startTime k) (failureModal k))
  | LOSE => k
  end.

Definition toggleCover (now : Z) (g : Game) (k : Clock) : Game * Clock :=
  let g := mkGame (state g) (negb (coverVisible g)) (signalBuffer g)
                  (signal9Timer g) (fireRayCount g) in
  if coverVisible g then
    (* Play Mode: Cover is ON *)
    startTimer now g k
  else
    (* Edit Mode: Cover is OFF *)
    resetTimer g k.

(** The clock of a freshly constructed game. *)
Definition newClock : Clock := mkClock 300 300 false false None false.

(** Four obstacles in a 2 x 2 block, and a ray placed on one of them as
    the loop of [traceRay] would hold it after turning there: it goes
    round the block for ever. *)
Definition cycleState : Grid :=
  setCell (setCell (setCell (setCell (emptyGrid theN) 4 4 FixedObstacle)
                            3 4 FixedObstacle)
                   3 3 FixedObstacle)
          4 3 FixedObstacle.

Definition cycleStart : Ray.t := Ray.mk 4 3 Dir.E ∅ [].

(** * Properties *)

(** ** Grid access lemmas *)

Lemma cellAt_nat (st : Grid) (i j : nat) :
  cellAt st (Z.of_nat i) (Z.of_nat j) = (row ← st !! i; row !! j).
Proof.
  unfold cellAt. rewrite decide_True by lia. by rewrite !Nat2Z.id.
Qed.

Lemma cellAt_Some_nonneg (st : Grid) r c v :
  cellAt st r c = Some v → 0 ≤ r ∧ 0 ≤ c.
Proof. unfold cellAt. case_decide; [done | discriminate]. Qed.

Lemma cellAt_wf_is_Some N (st : Grid) r c :
  wf_grid N st → 0 ≤ r < Z.of_nat N → 0 ≤ c < Z.of_nat N →
  is_Some (cellAt st r c).
Proof.
  intros [Hlen Hrows] Hr Hc. unfold cellAt. rewrite decide_True by lia.
  destruct (lookup_lt_is_Some_2 st (Z.to_nat r)) as [row Hrow]; [lia |].
  rewrite Hrow. simpl.
  apply lookup_lt_is_Some_2.
  rewrite (Forall_lookup_1 _ _ _ _ Hrows Hrow). lia.
Qed.

Lemma cellAt_wf_Some_lt N (st : Grid) r c v :
  wf_grid N st → cellAt st r c = Some v →
  0 ≤ r < Z.of_nat N ∧ 0 ≤ c < Z.of_nat N.
Proof.
  intros [Hlen Hrows] H. pose proof (cellAt_Some_nonneg _ _ _ _ H) as [??].
  unfold cellAt in H. rewrite decide_True in H by done.
  destruct (st !! Z.to_nat r) as [row|] eqn:Hrow; [| discriminate].
  simpl in H.
  pose proof (lookup_lt_Some _ _ _ Hrow).
  pose proof (lookup_lt_Some _ _ _ H) as Hc.
  rewrite (Forall_lookup_1 _ _ _ _ Hrows Hrow) in Hc. lia.
Qed.

Lemma cellAt_setCell_eq (st : Grid) r c v w :
  cellAt st r c = Some v → cellAt (setCell st r c w) r c = Some w.
Proof.
  intros H. pose proof (cellAt_Some_nonneg _ _ _ _ H) as Hnn.
  unfold cellAt, setCell in *. rewrite decide_True in * by done.
  rewrite list_lookup_alter_eq.
  destruct (st !! Z.to_nat r) as [row|]; [| discriminate]. simpl in *.
  apply list_lookup_insert_eq. by eapply lookup_lt_Some.
Qed.

Lemma cellAt_setCell_ne (st : Grid) r c w r' c' :
  0 ≤ r → 0 ≤ c → (r', c') ≠ (r, c) →
  cellAt (setCell st r c w) r' c' = cellAt st r' c'.
Proof.
  intros Hr Hc Hne. unfold cellAt, setCell. case_decide; [| done].
  destruct (decide (Z.to_nat r = Z.to_nat r')) as [Heq | Hneq].
  - rewrite <- Heq, list_lookup_alter_eq.
    destruct (st !! Z.to_nat r) as [row|]; [| done]. simpl.
    apply list_lookup_insert_ne. intros Hc'.
    apply Hne. f_equal; lia.
  - by rewrite list_lookup_alter_ne.
Qed.

Lemma setCell_wf N (st : Grid) r c w :
  wf_grid N st → wf_grid N (setCell st r c w).
Proof.
  intros [Hlen Hrows]. unfold setCell. split.
  - by rewrite length_alter.
  - apply Forall_lookup_2. intros i row Hrow.
    destruct (decide (Z.to_nat r = i)) as [<- | Hne].
    + rewrite list_lookup_alter_eq in Hrow.
      destruct (st !! Z.to_nat r) as [row0|] eqn:H0; [| discriminate].
      simpl in Hrow. injection Hrow as <-. rewrite length_insert.
      by eapply Forall_lookup_1 in Hrows.
    + rewrite list_lookup_alter_ne in Hrow by done.
      by eapply Forall_lookup_1 in Hrows.
Qed.

Lemma setCell_same (st : Grid) r c v :
  cellAt st r c = Some v → setCell st r c v = st.
Proof.
  intros H. pose proof (cellAt_Some_nonneg _ _ _ _ H) as Hnn.
  unfold cellAt, setCell in *. rewrite decide_True in H by done.
  destruct (st !! Z.to_nat r) as [row|] eqn:Hrow; [| discriminate].
  simpl in H. apply list_eq. intros i.
  destruct (decide (Z.to_nat r = i)) as [<- | Hne].
  - rewrite list_lookup_alter_eq, Hrow. simpl. f_equal.
    by apply list_insert_id.
  - by rewrite list_lookup_alter_ne.
Qed.

(** Two N x N matrices with the same cells are the same matrix. *)
Lemma grid_ext N (a b : Grid) :
  wf_grid N a → wf_grid N b →
  (∀ i j : nat, cellAt a (Z.of_nat i) (Z.of_nat j) = cellAt b (Z.of_nat i) (Z.of_nat j)) →
  a = b.
Proof.
  intros [Hla Hra] [Hlb Hrb] Heq. apply list_eq. intros i.
  destruct (a !! i) as [ra|] eqn:Ha, (b !! i) as [rb|] eqn:Hb.
  - f_equal. apply list_eq. intros j.
    specialize (Heq i j). rewrite !cellAt_nat, Ha, Hb in Heq. done.
  - apply lookup_lt_Some in Ha. apply lookup_ge_None in Hb. lia.
  - apply lookup_lt_Some in Hb. apply lookup_ge_None in Ha. lia.
  - done.
Qed.

Lemma cellAt_fmap (f : Cell → Cell) (st : Grid) r c :
  cellAt (map (map f) st) r c = f <$> cellAt st r c.
Proof.
  unfold cellAt. case_decide; [| done].
  change (map (map f) st) with (map f <$> st).
  rewrite list_lookup_fmap.
  destruct (st !! Z.to_nat r) as [row|]; [| done]. simpl.
  change (map f row) with (f <$> row). by rewrite list_lookup_fmap.
Qed.

Lemma fmap_wf N (f : Cell → Cell) (st : Grid) :
  wf_grid N st → wf_grid N (map (map f) st).
Proof.
  intros [Hlen Hrows]. split.
  - by rewrite length_map.
  - apply Forall_lookup_2. intros i row Hrow.
    change (map (map f) st) with (map f <$> st) in Hrow.
    rewrite list_lookup_fmap in Hrow.
    destruct (st !! i) as [row0|] eqn:H0; [| discriminate].
    injection Hrow as <-. rewrite length_map.
    by eapply Forall_lookup_1 in Hrows.
Qed.

Lemma emptyGrid_wf N : wf_grid N (emptyGrid N).
Proof.
  unfold emptyGrid. split.
  - by rewrite length_replicate.
  - apply Forall_replicate. by rewrite length_replicate.
Qed.

Lemma initialState_wf : wf_grid theN initialState.
Proof.
  unfold initialState.
  generalize (emptyGrid_wf theN). generalize (emptyGrid theN).
  induction fixedObstacles as [| rc l IH]; intros st Hst; [done |].
  simpl. apply IH. by apply setCell_wf.
Qed.

(** ** Cell toggling *)

(** C8: in edit mode [toggleCell] follows FixedObstacle -> Empty,
    Empty -> FixedObstacle, PlayerObstacle -> Empty; in play mode it swaps
    Empty and PlayerObstacle and leaves a FixedObstacle cell (and the whole
    game) as it was; every other cell, and every other field, is unchanged. *)
Theorem toggleCell_postcondition (N : nat) (g : Game) (r c : Z) :
  wf_grid N (state g) → 0 ≤ r < Z.of_nat N → 0 ≤ c < Z.of_nat N →
  ∃ v g',
    cellAt (state g) r c = Some v ∧
    toggleCell g r c = Some g' ∧
    cellAt (state g') r c =
      Some (match coverVisible g, v with
            | false, FixedObstacle => Empty
            | false, Empty => FixedObstacle
            | false, PlayerObstacle => Empty
            | true, FixedObstacle => FixedObstacle
            | true, Empty => PlayerObstacle
            | true, PlayerObstacle => Empty
            end) ∧
    (coverVisible g = true → v = FixedObstacle → g' = g) ∧
    (∀ r' c', (r', c') ≠ (r, c) →
              cellAt (state g') r' c' = cellAt (state g) r' c') ∧
    wf_grid N (state g') ∧
    coverVisible g' = coverVisible g ∧
    signalBuffer g' = signalBuffer g ∧
    signal9Timer g' = signal9Timer g ∧
    fireRayCount g' = fireRayCount g.
Proof.
  intros Hwf Hr Hc.
  destruct (cellAt_wf_is_Some N _ r c Hwf Hr Hc) as [v Hv].
  assert (Hset : ∀ w,
    cellAt (setCell (state g) r c w) r c = Some w ∧
    (∀ r' c', (r', c') ≠ (r, c) →
       cellAt (setCell (state g) r c w) r' c' = cellAt (state g) r' c') ∧
    wf_grid N (setCell (state g) r c w)).
  { intros w. split; [by eapply cellAt_setCell_eq |]. split.
    - intros r' c' Hne. apply cellAt_setCell_ne; [lia | lia | done].
    - by apply setCell_wf. }
  exists v. unfold toggleCell. rewrite Hv. simpl.
  destruct (coverVisible g) eqn:Hcover, v; simpl;
    eexists; (split; [reflexivity |]); (split; [reflexivity |]); simpl;
    try (destruct (Hset Empty) as (? & ? & ?));
    try (destruct (Hset PlayerObstacle) as (? & ? & ?));
    try (destruct (Hset FixedObstacle) as (? & ? & ?));
    rewrite ?Hcover; split_and!; try done.
Qed.

Lemma toggleCell_postcondition_witness :
  ∃ v g',
    cellAt (state newGame) 2 4 = Some v ∧
    toggleCell newGame 2 4 = Some g' ∧
    cellAt (state g') 2 4 =
      Some (match coverVisible newGame, v with
            | false, FixedObstacle => Empty
            | false, Empty => FixedObstacle
            | false, PlayerObstacle => Empty
            | true, FixedObstacle => FixedObstacle
            | true, Empty => PlayerObstacle
            | true, PlayerObstacle => Empty
            end) ∧
    (coverVisible newGame = true → v = FixedObstacle → g' = newGame) ∧
    (∀ r' c', (r', c') ≠ (2, 4) →
              cellAt (state g') r' c' = cellAt (state newGame) r' c') ∧
    wf_grid theN (state g') ∧
    coverVisible g' = coverVisible newGame ∧
    signalBuffer g' = signalBuffer newGame ∧
    signal9Timer g' = signal9Timer newGame ∧
    fireRayCount g' = fireRayCount newGame.
Proof.
  apply (toggleCell_postcondition theN newGame 2 4).
  - split; [reflexivity | vm_compute; repeat constructor].
  - vm_compute; split; [discriminate | reflexivity].
  - vm_compute; split; [discriminate | reflexivity].
Defined.

(** The toggle cycle of the edit mode on the reference level: three calls
    on an empty cell visit FixedObstacle, Empty, FixedObstacle. *)
Example toggleCell_cycle :
  (g1 ← toggleCell newGame 0 0; cellAt (state g1) 0 0) = Some FixedObstacle ∧
  (g1 ← toggleCell newGame 0 0; g2 ← toggleCell g1 0 0; cellAt (state g2) 0 0)
    = Some Empty ∧
  (g1 ← toggleCell newGame 0 0; g2 ← toggleCell g1 0 0; g3 ← toggleCell g2 0 0;
   cellAt (state g3) 0 0) = Some FixedObstacle.
Proof. repeat split; reflexivity. Qed.

(** ** Resetting the player obstacles *)

Lemma foldl_seq_option_inv {A} (f : A → nat → option A) (P : nat → A → Prop)
    (n : nat) (a : A) :
  P 0%nat a →
  (∀ k x, (k < n)%nat → P k x → ∃ y, f x k = Some y ∧ P (S k) y) →
  ∃ y, foldl (λ acc k, x ← acc; f x k) (Some a) (seq 0 n) = Some y ∧ P n y.
Proof.
  intros H0. induction n as [| n IH]; intros Hstep.
  - simpl. eauto.
  - destruct IH as (x & Hx & HP).
    { intros k y Hk. apply Hstep. lia. }
    rewrite seq_S, foldl_app, Hx. simpl.
    apply Hstep; [lia | done].
Qed.

Lemma resetRow_spec (N : nat) (st : Grid) (r : nat) :
  wf_grid N st → (r < N)%nat →
  ∃ st', resetRow N st r = Some st' ∧ wf_grid N st' ∧
    ∀ i j : nat,
      cellAt st' (Z.of_nat i) (Z.of_nat j) =
        if decide (i = r) then resetCell <$> cellAt st (Z.of_nat i) (Z.of_nat j)
        else cellAt st (Z.of_nat i) (Z.of_nat j).
Proof.
  intros Hwf Hr.
  destruct (foldl_seq_option_inv (λ x c, resetAt x r c)
    (λ k x, wf_grid N x ∧ ∀ i j : nat,
       cellAt x (Z.of_nat i) (Z.of_nat j) =
         if decide (i = r ∧ (j < k)%nat)
         then resetCell <$> cellAt st (Z.of_nat i) (Z.of_nat j)
         else cellAt st (Z.of_nat i) (Z.of_nat j)) N st) as (y & Hy & Hwfy & Hcells).
  - split; [done |]. intros i j. rewrite decide_False by lia. done.
  - intros k x Hk [Hwfx Hx].
    destruct (cellAt_wf_is_Some N x (Z.of_nat r) (Z.of_nat k)) as [v Hv];
      [done | lia | lia |].
    unfold resetAt. rewrite Hv. simpl. eexists. split; [reflexivity |].
    assert (Hv0 : cellAt st (Z.of_nat r) (Z.of_nat k) = Some v).
    { rewrite <- Hv, Hx. rewrite decide_False by lia. done. }
    split.
    { case_bool_decide; [by apply setCell_wf | done]. }
    intros i j. destruct (decide (i = r ∧ j = k)) as [[-> ->] | Hne].
    + rewrite decide_True by lia. rewrite Hv0. simpl.
      case_bool_decide as Hp.
      * subst v. by erewrite cellAt_setCell_eq.
      * rewrite Hv. by destruct v.
    + assert (cellAt (if bool_decide (v = PlayerObstacle)
                      then setCell x (Z.of_nat r) (Z.of_nat k) Empty else x)
                (Z.of_nat i) (Z.of_nat j) = cellAt x (Z.of_nat i) (Z.of_nat j)) as ->.
      { case_bool_decide; [| done].
        apply cellAt_setCell_ne; [lia | lia |]. intros [=]. apply Hne. lia. }
      rewrite Hx. repeat case_decide; try done; lia.
  - exists y. split; [done |]. split; [done |].
    intros i j. rewrite Hcells.
    destruct (decide (i = r)) as [-> | Hne].
    + destruct (decide (j < N)%nat).
      * rewrite decide_True by lia. done.
      * rewrite decide_False by lia.
        destruct (cellAt st (Z.of_nat r) (Z.of_nat j)) as [v|] eqn:Hv; [| done].
        apply (cellAt_wf_Some_lt N) in Hv; [lia | done].
    + rewrite decide_False by (intros [? ?]; done). done.
Qed.

Lemma resetRows_spec (N : nat) (st : Grid) :
  wf_grid N st → resetRows N st = Some (map (map resetCell) st).
Proof.
  intros Hwf.
  destruct (foldl_seq_option_inv (λ x r, resetRow N x r)
    (λ k x, wf_grid N x ∧ ∀ i j : nat,
       cellAt x (Z.of_nat i) (Z.of_nat j) =
         if decide (i < k)%nat
         then resetCell <$> cellAt st (Z.of_nat i) (Z.of_nat j)
         else cellAt st (Z.of_nat i) (Z.of_nat j)) N st) as (y & Hy & Hwfy & Hcells).
  - split; [done |]. intros i j. rewrite decide_False by lia. done.
  - intros k x Hk [Hwfx Hx].
    destruct (resetRow_spec N x k Hwfx Hk) as (y & Hy & Hwfy & Hcells).
    exists y. split; [done |]. split; [done |].
    intros i j. rewrite Hcells, !Hx.
    repeat case_decide; try done; lia.
  - unfold resetRows. rewrite Hy. f_equal.
    apply (grid_ext N); [done | by apply fmap_wf |].
    intros i j. rewrite Hcells, cellAt_fmap.
    case_decide; [done |].
    destruct (cellAt st (Z.of_nat i) (Z.of_nat j)) as [v|] eqn:Hv; [| done].
    apply (cellAt_wf_Some_lt N) in Hv; [lia | done].
Qed.

Lemma resetCell_idemp v : resetCell (resetCell v) = resetCell v.
Proof. by destruct v. Qed.

(** C9: on every N x N grid [resetPlayerObstacles] returns, turns each
    PlayerObstacle cell into Empty and keeps every other cell (FixedObstacle
    cells in particular) and every other field; a second call changes
    nothing more. *)
Theorem resetPlayerObstacles_spec (N : nat) (g : Game) :
  wf_grid N (state g) →
  ∃ g',
    resetPlayerObstacles N g = Some g' ∧
    state g' = map (map resetCell) (state g) ∧
    (∀ r c v, cellAt (state g) r c = Some v →
       cellAt (state g') r c = Some (if bool_decide (v = PlayerObstacle) then Empty else v)) ∧
    (∀ r c, cellAt (state g) r c = Some FixedObstacle →
       cellAt (state g') r c = Some FixedObstacle) ∧
    wf_grid N (state g') ∧
    coverVisible g' = coverVisible g ∧
    signalBuffer g' = signalBuffer g ∧
    signal9Timer g' = signal9Timer g ∧
    fireRayCount g' = fireRayCount g ∧
    resetPlayerObstacles N g' = Some g'.
Proof.
  intros Hwf. unfold resetPlayerObstacles.
  rewrite (resetRows_spec N _ Hwf). simpl.
  eexists. split; [reflexivity |]. simpl.
  split; [done |].
  split. { intros r c v Hv. rewrite cellAt_fmap, Hv. by destruct v. }
  split. { intros r c Hv. by rewrite cellAt_fmap, Hv. }
  split. { by apply fmap_wf. }
  do 4 (split; [done |]).
  rewrite (resetRows_spec N) by (by apply fmap_wf). simpl.
  unfold with_state. simpl. do 2 f_equal.
  rewrite map_map. apply map_ext. intros row.
  rewrite map_map. apply map_ext. intros v. apply resetCell_idemp.
Qed.

Lemma resetPlayerObstacles_spec_witness :
  ∃ g',
    resetPlayerObstacles theN playGame = Some g' ∧
    state g' = map (map resetCell) (state playGame) ∧
    (∀ r c v, cellAt (state playGame) r c = Some v →
       cellAt (state g') r c = Some (if bool_decide (v = PlayerObstacle) then Empty else v)) ∧
    (∀ r c, cellAt (state playGame) r c = Some FixedObstacle →
       cellAt (state g') r c = Some FixedObstacle) ∧
    wf_grid theN (state g') ∧
    coverVisible g' = coverVisible playGame ∧
    signalBuffer g' = signalBuffer playGame ∧
    signal9Timer g' = signal9Timer playGame ∧
    fireRayCount g' = fireRayCount playGame ∧
    resetPlayerObstacles theN g' = Some g'.
Proof.
  apply (resetPlayerObstacles_spec theN playGame).
  split; [reflexivity | vm_compute; repeat constructor].
Defined.

(** The reset on the play-mode sample: both player obstacles go, the
    fixed obstacles stay, and the result is the initial matrix again. *)
Example resetPlayerObstacles_playGame :
  state <$> resetPlayerObstacles theN playGame = Some initialState.
Proof. reflexivity. Qed.

(** ** The ray tracer *)

Lemma rayAfter_S (st : Grid) (k : nat) (p : Z * Z * Dir.t) :
  rayAfter st (S k) p = advance st (rayAfter st k p).
Proof.
  revert p. induction k as [| k IH]; intros p; [done |].
  change (rayAfter st (S (S k)) p) with (rayAfter st (S k) (advance st p)).
  by rewrite IH.
Qed.

Lemma advance_pos (st : Grid) (p : Z * Z * Dir.t) :
  (advance st p).1.1 = p.1.1 + (dirToDelta p.2).1
  ∧ (advance st p).1.2 = p.1.2 + (dirToDelta p.2).2.
Proof.
  destruct p as [[r c] d]. unfold advance. simpl.
  destruct (dirToDelta d) as [dr dc]. simpl.
  by destruct (cellAt st (r + dr) (c + dc)).
Qed.

Lemma advance_dir (st : Grid) (p : Z * Z * Dir.t) (cellVal : Cell) :
  cellAt st (advance st p).1.1 (advance st p).1.2 = Some cellVal →
  (advance st p).2 = if isObstacle cellVal then rotateCCW p.2 else p.2.
Proof.
  destruct (advance_pos st p) as [-> ->].
  destruct p as [[r c] d]. unfold advance. simpl.
  destruct (dirToDelta d) as [dr dc]. simpl. by intros ->.
Qed.

#[local] Arguments rayAfter : simpl never.

Section Trace.
Variable N : nat.
Variable level : Level.t.
Variable st : Grid.
Variable p : Z * Z * Dir.t.

Lemma traceStep_unfold (s : Ray.t) :
  traceStep N level st s =
    let nr := Ray.r s + (dirToDelta (Ray.dir s)).1 in
    let nc := Ray.c s + (dirToDelta (Ray.dir s)).2 in
    if negb (isInside N nr nc) then
      if isInside N (Ray.r s) (Ray.c s) then
        exitInfo ← computeExitSideAndIndex N (Ray.r s) (Ray.c s) nr nc;
        let win := bool_decide (exitInfo = Level.exit level) in
        Some (Return (SimulationResult.mk
                        (if win then WIN else LOSE)
                        (Some exitInfo)
                        (Ray.path s)
                        (if win then ExitedThroughExit else ExitedElsewhere exitInfo)))
      else
        Some (Return (SimulationResult.mk LOSE None (Ray.path s) NeverEntered))
    else
      let key : Key := (nr, nc, Ray.dir s) in
      if decide (key ∈ Ray.visited s) then
        Some (Return (SimulationResult.mk LOSE None (Ray.path s) LoopDetected))
      else
        cellVal ← cellAt st nr nc;
        Some (Continue (Ray.mk nr nc
                          (if isObstacle cellVal then rotateCCW (Ray.dir s) else Ray.dir s)
                          ({[ key ]} ∪ Ray.visited s)
                          (Ray.path s ++ [PathEntry.mk nr nc (Ray.dir s) cellVal]))).
Proof. unfold traceStep. by destruct (dirToDelta (Ray.dir s)). Qed.

(** Where the next move lands, in terms of the memo-free ray. *)
Lemma inv_next (k : nat) (s : Ray.t) :
  trace_inv N st p k s →
  Ray.r s = (rayAfter st k p).1.1
  ∧ Ray.c s = (rayAfter st k p).1.2
  ∧ Ray.dir s = (rayAfter st k p).2
  ∧ Ray.r s + (dirToDelta (Ray.dir s)).1 = (rayAfter st (S k) p).1.1
  ∧ Ray.c s + (dirToDelta (Ray.dir s)).2 = (rayAfter st (S k) p).1.2.
Proof.
  intros [Hray _ _ _]. rewrite rayAfter_S.
  destruct (advance_pos st (rayAfter st k p)) as [-> ->].
  rewrite <- Hray. done.
Qed.

Lemma trace_inv_start (r c : Z) (dir : Dir.t) :
  p = (r, c, dir) → trace_inv N st p 0 (Ray.mk r c dir ∅ []).
Proof.
  intros ->. split; simpl.
  - done.
  - done.
  - intros key. split; [set_solver |]. intros (i & Hi & _). lia.
  - split; intros; lia.
Qed.

Lemma traceStep_Continue (k : nat) (s s' : Ray.t) :
  trace_inv N st p k s →
  traceStep N level st s = Some (Continue s') →
  trace_inv N st p (S k) s'.
Proof.
  intros Hinv Hstep.
  destruct (inv_next k s Hinv) as (Hr & Hc & Hd & Hnr & Hnc).
  destruct Hinv as [Hray Hpath Hvis [Hin Hdist]].
  rewrite traceStep_unfold in Hstep. cbv zeta in Hstep.
  rewrite Hnr, Hnc, Hd in Hstep.
  destruct (isInside N _ _) eqn:Hinside; simpl in Hstep.
  2: { destruct (isInside N (Ray.r s) (Ray.c s)); [| done].
       by destruct (computeExitSideAndIndex N _ _ _ _). }
  case_decide as Hkey; [done |].
  destruct (cellAt st _ _) as [cellVal|] eqn:Hcell; [| done].
  simpl in Hstep. injection Hstep as <-.
  assert (Hdir : (rayAfter st (S k) p).2 =
                 if isObstacle cellVal then rotateCCW (rayAfter st k p).2
                 else (rayAfter st k p).2).
  { rewrite rayAfter_S. apply advance_dir. by rewrite <- rayAfter_S. }
  split; cbn [Ray.r Ray.c Ray.dir Ray.path Ray.visited].
  - rewrite <- Hdir. by destruct (rayAfter st (S k) p) as [[? ?] ?].
  - rewrite seq_S, fmap_app, Hpath. simpl. do 2 f_equal.
    unfold entryAt. by rewrite Hcell.
  - intros key. rewrite elem_of_union, elem_of_singleton, Hvis. split.
    + intros [-> | (i & Hi & ->)]; [exists k | exists i]; (split; [lia | done]).
    + intros (i & Hi & ->). destruct (decide (i = k)) as [-> | Hne].
      * by left.
      * right. exists i. split; [lia | done].
  - split.
    + intros i Hi. destruct (decide (i = k)) as [-> | Hne].
      * split; [done | by rewrite Hcell].
      * apply Hin. lia.
    + intros i j Hij. destruct (decide (j = k)) as [-> | Hne].
      * intros Heq. apply Hkey. apply Hvis. exists i.
        split; [lia |]. by rewrite Heq.
      * apply Hdist. lia.
Qed.

Lemma traceStep_Return (k : nat) (s : Ray.t) (res : SimulationResult.t) :
  trace_inv N st p k s →
  traceStep N level st s = Some (Return res) →
  trace_ends N level st p k res.
Proof.
  intros Hinv Hstep.
  destruct (inv_next k s Hinv) as (Hr & Hc & Hd & Hnr & Hnc).
  destruct Hinv as [Hray Hpath Hvis [Hin Hdist]].
  rewrite traceStep_unfold in Hstep. cbv zeta in Hstep.
  rewrite Hpath in Hstep.
  destruct (isInside N (Ray.r s + _) _) eqn:Hnext; simpl in Hstep.
  - case_decide as Hkey; [| by destruct (cellAt st _ _)].
    injection Hstep as <-.
    apply Hvis in Hkey as (i & Hi & Hkey).
    apply (ends_loop _ _ _ _ _ i); [| done |].
    + unfold insideAfter. by rewrite <- Hnr, <- Hnc.
    + rewrite <- Hkey. unfold enteredAt. by rewrite <- Hnr, <- Hnc, <- Hd.
  - assert (¬ insideAfter N st p (S k)) as Hout.
    { unfold insideAfter. rewrite <- Hnr, <- Hnc, Hnext. done. }
    destruct (isInside N (Ray.r s) (Ray.c s)) eqn:Hcur.
    + destruct (computeExitSideAndIndex _ _ _ _ _) as [e|] eqn:He; [| done].
      simpl in Hstep. injection Hstep as <-.
      apply ends_exit; [| done |].
      * unfold insideAfter. by rewrite <- Hr, <- Hc.
      * by rewrite <- Hr, <- Hc, <- Hd.
    + injection Hstep as <-. apply ends_never; [| done].
      unfold insideAfter. rewrite <- Hr, <- Hc, Hcur. done.
Qed.

Lemma traceLoop_ends (fuel k : nat) (s : Ray.t) (res : SimulationResult.t) :
  trace_inv N st p k s →
  (k + fuel)%nat = maxSteps →
  traceLoop N level st fuel s = Some res →
  ∃ k', (k' ≤ maxSteps)%nat
        ∧ prefix_ok N st p k'
        ∧ trace_ends N level st p k' res
        ∧ (SimulationResult.reason res ≠ StepLimitReached → (k' < maxSteps)%nat).
Proof.
  revert k s. induction fuel as [| fuel IH]; intros k s Hinv Hk Hres.
  - simpl in Hres. injection Hres as <-. exists k.
    split; [lia |]. split; [by destruct Hinv |]. split; [| done].
    rewrite (inv_path _ _ _ _ _ Hinv). apply ends_limit. lia.
  - simpl in Hres.
    destruct (traceStep N level st s) as [[s' | res'] |] eqn:Hstep; [| | done].
    + apply (IH (S k) s'); [by eapply traceStep_Continue | lia | done].
    + injection Hres as ->. exists k.
      split; [lia |]. split; [by destruct Hinv |].
      split; [by eapply traceStep_Return | lia].
Qed.

(** On an N x N matrix no pass of the loop throws. *)
Lemma traceStep_total (s : Ray.t) :
  wf_grid N st → is_Some (traceStep N level st s).
Proof.
  intros Hwf. rewrite traceStep_unfold. cbv zeta.
  destruct (isInside N (Ray.r s + _) _) eqn:Hnext; simpl.
  - case_decide; [done |].
    destruct (cellAt_wf_is_Some N st (Ray.r s + (dirToDelta (Ray.dir s)).1)
                (Ray.c s + (dirToDelta (Ray.dir s)).2)) as [v ->]; [done | | | done];
      unfold isInside in Hnext; lia.
  - destruct (isInside N (Ray.r s) (Ray.c s)); [| done].
    unfold computeExitSideAndIndex, isInside in *.
    repeat case_match; try done; lia.
Qed.

Lemma traceLoop_total (fuel : nat) (s : Ray.t) :
  wf_grid N st → is_Some (traceLoop N level st fuel s).
Proof.
  intros Hwf. revert s. induction fuel as [| fuel IH]; intros s; [done |].
  simpl. destruct (traceStep_total s Hwf) as [[s' | res] ->]; [apply IH | done].
Qed.

(** *** The ray cannot come back to a triple

    One move can be undone: the cell and the heading on the way in give
    the cell before.  A ray that starts outside the grid therefore never
    enters the same triple twice. *)
Lemma rotateCCW_inj d1 d2 : rotateCCW d1 = rotateCCW d2 → d1 = d2.
Proof. by destruct d1, d2. Qed.

Lemma enteredAt_back (i j : nat) :
  is_Some (cellAt st (rayAfter st (S i) p).1.1 (rayAfter st (S i) p).1.2) →
  enteredAt st p (S i) = enteredAt st p (S j) →
  enteredAt st p i = enteredAt st p j.
Proof.
  intros [v Hv]. unfold enteredAt. intros [= Hr Hc Hd].
  rewrite (rayAfter_S st (S i)), (rayAfter_S st (S j)) in Hr, Hc.
  destruct (advance_pos st (rayAfter st (S i) p)) as [Hri Hci].
  destruct (advance_pos st (rayAfter st (S j) p)) as [Hrj Hcj].
  rewrite Hri, Hrj, Hd in Hr. rewrite Hci, Hcj, Hd in Hc.
  assert (Hr' : (rayAfter st (S i) p).1.1 = (rayAfter st (S j) p).1.1) by lia.
  assert (Hc' : (rayAfter st (S i) p).1.2 = (rayAfter st (S j) p).1.2) by lia.
  rewrite Hr', Hc'. f_equal.
  pose proof Hv as Hvj. rewrite Hr', Hc' in Hvj.
  rewrite (rayAfter_S st i) in Hv, Hd. rewrite (rayAfter_S st j) in Hvj, Hd.
  rewrite (advance_dir _ _ _ Hv), (advance_dir _ _ _ Hvj) in Hd.
  destruct (isObstacle v); [by apply rotateCCW_inj | done].
Qed.

Lemma enteredAt_fresh (i j : nat) :
  ¬ insideAfter N st p 0 →
  (∀ m, (m < j)%nat →
        insideAfter N st p (S m)
        ∧ is_Some (cellAt st (rayAfter st (S m) p).1.1 (rayAfter st (S m) p).1.2)) →
  (i < j)%nat →
  enteredAt st p i ≠ enteredAt st p j.
Proof.
  intros Hout. revert j. induction i as [| i IH]; intros j Hin Hij Heq.
  - destruct j as [| j]; [lia |].
    destruct (Hin j) as [Hins _]; [lia |].
    apply Hout. unfold insideAfter in *. unfold enteredAt in Heq.
    injection Heq as Hr Hc Hd.
    rewrite (rayAfter_S st 0) in Hr, Hc. rewrite (rayAfter_S st (S j)) in Hr, Hc.
    destruct (advance_pos st (rayAfter st 0 p)) as [Hr0 Hc0].
    destruct (advance_pos st (rayAfter st (S j) p)) as [Hrj Hcj].
    rewrite Hr0, Hrj, Hd in Hr. rewrite Hc0, Hcj, Hd in Hc.
    assert ((rayAfter st 0 p).1.1 = (rayAfter st (S j) p).1.1) as -> by lia.
    assert ((rayAfter st 0 p).1.2 = (rayAfter st (S j) p).1.2) as -> by lia.
    done.
  - destruct j as [| j]; [lia |].
    apply (IH j); [intros m Hm; apply Hin; lia | lia |].
    apply enteredAt_back; [| done]. apply Hin. lia.
Qed.
End Trace.

Lemma entryStartOutside_outside (N : nat) (level : Level.t) (st : Grid) :
  ¬ insideAfter N st (entryStartOutside N level) 0.
Proof.
  unfold insideAfter, rayAfter, entryStartOutside, isInside.
  destruct (BoundaryRef.side (Level.entry level)); simpl; lia.
Qed.

Lemma traceRay_ends (N : nat) (level : Level.t) (st : Grid) (res : SimulationResult.t) :
  traceRay N level st = Some res →
  ∃ k, (k ≤ maxSteps)%nat
       ∧ prefix_ok N st (entryStartOutside N level) k
       ∧ trace_ends N level st (entryStartOutside N level) k res
       ∧ (SimulationResult.reason res ≠ StepLimitReached → (k < maxSteps)%nat).
Proof.
  unfold traceRay, traceStart. intros Hres.
  destruct (entryStartOutside N level) as [[r c] dir] eqn:Hstart.
  eapply (traceLoop_ends N level st _ maxSteps 0); [| done | done].
  by apply trace_inv_start.
Qed.

Lemma traceRay_total (N : nat) (level : Level.t) (st : Grid) :
  wf_grid N st → is_Some (traceRay N level st).
Proof. intros Hwf. by apply traceLoop_total. Qed.

(** The loop-detection return is never taken by a ray that enters from
    outside the grid. *)
Lemma traceRay_never_loops (N : nat) (level : Level.t) (st : Grid)
    (res : SimulationResult.t) :
  traceRay N level st = Some res →
  SimulationResult.reason res ≠ LoopDetected.
Proof.
  intros Hres. destruct (traceRay_ends _ _ _ _ Hres) as (k & _ & [Hin _] & Hends & _).
  destruct Hends as [e ? ? ? | ? ? | i ? Hi Heq | ?]; simpl; try done.
  - by case_bool_decide.
  - exfalso. eapply (enteredAt_fresh N st _ i k); [| done | done | done].
    apply entryStartOutside_outside.
Qed.

Lemma trace_ends_path N level st p k res :
  trace_ends N level st p k res →
  SimulationResult.path res = entryAt st p <$> seq 0 k.
Proof. by intros []. Qed.

Lemma lookup_entries (st : Grid) (p : Z * Z * Dir.t) (k i : nat) (e : PathEntry.t) :
  (entryAt st p <$> seq 0 k) !! i = Some e ↔ (i < k)%nat ∧ e = entryAt st p i.
Proof.
  rewrite list_lookup_fmap. split.
  - destruct (seq 0 k !! i) as [i'|] eqn:Hi; [| done].
    apply lookup_seq in Hi as [-> ?]. simpl. intros [= <-]. done.
  - intros [Hi ->]. by rewrite lookup_seq_lt.
Qed.

Lemma isInside_bounds (N : nat) (r c : Z) :
  isInside N r c = true ↔ 0 ≤ r < Z.of_nat N ∧ 0 ≤ c < Z.of_nat N.
Proof. unfold isInside. lia. Qed.

(** C10: every entry of the returned path lies in the grid, the path has
    at most 512 entries, and no two entries share their
    (r, c, direction-on-entry) triple. *)
Theorem traceRay_path_invariants (N : nat) (level : Level.t) (st : Grid)
    (res : SimulationResult.t) :
  traceRay N level st = Some res →
  Forall (λ e, 0 ≤ PathEntry.r e < Z.of_nat N ∧ 0 ≤ PathEntry.c e < Z.of_nat N)
         (SimulationResult.path res)
  ∧ (length (SimulationResult.path res) ≤ 512)%nat
  ∧ NoDup (keyOf <$> SimulationResult.path res).
Proof.
  intros Hres.
  destruct (traceRay_ends _ _ _ _ Hres) as (k & Hk & [Hin Hdist] & Hends & _).
  rewrite (trace_ends_path _ _ _ _ _ _ Hends). split_and!.
  - apply Forall_lookup_2. intros i e [Hi ->]%lookup_entries.
    destruct (Hin i Hi) as [Hins _]. by apply isInside_bounds in Hins.
  - rewrite length_fmap, length_seq. exact Hk.
  - apply NoDup_alt. intros i j key Hi Hj.
    rewrite list_lookup_fmap in Hi, Hj.
    destruct (_ !! i) as [ei|] eqn:Hei; [| done].
    destruct (_ !! j) as [ej|] eqn:Hej; [| done].
    apply lookup_entries in Hei as [Hik ->]. apply lookup_entries in Hej as [Hjk ->].
    assert (enteredAt st (entryStartOutside N level) i
            = enteredAt st (entryStartOutside N level) j) as Heq.
    { change (keyOf (entryAt st (entryStartOutside N level) i)
              = keyOf (entryAt st (entryStartOutside N level) j)).
      simpl in Hi, Hj. congruence. }
    destruct (Nat.lt_trichotomy i j) as [Hlt | [-> | Hlt]]; [| done |].
    + exfalso. apply (Hdist i j); [lia | done].
    + exfalso. apply (Hdist j i); [lia | done].
Qed.

Lemma traceRay_path_invariants_witness :
  ∃ res,
    traceRay theN theLevel crossingState = Some res
    ∧ Forall (λ e, 0 ≤ PathEntry.r e < Z.of_nat theN ∧ 0 ≤ PathEntry.c e < Z.of_nat theN)
             (SimulationResult.path res)
    ∧ (length (SimulationResult.path res) ≤ 512)%nat
    ∧ NoDup (keyOf <$> SimulationResult.path res).
Proof.
  eexists. split; [vm_compute; reflexivity |].
  apply (traceRay_path_invariants theN theLevel crossingState).
  vm_compute. reflexivity.
Defined.

Lemma prefix_dir (N : nat) (st : Grid) (p : Z * Z * Dir.t) (k i : nat) :
  prefix_ok N st p k → (i < k)%nat →
  cellAt st (PathEntry.r (entryAt st p i)) (PathEntry.c (entryAt st p i))
    = Some (PathEntry.cellType (entryAt st p i))
  ∧ (rayAfter st (S i) p).2 = dirAfter (entryAt st p i).
Proof.
  intros [Hin _] Hi. destruct (Hin i Hi) as [_ [v Hv]].
  unfold dirAfter, entryAt. simpl. rewrite Hv. simpl. split; [done |].
  rewrite rayAfter_S. apply advance_dir. by rewrite <- rayAfter_S.
Qed.

(** C5: a pass of the loop whose next cell is in the grid, is not in the
    memo and can be read goes on from that cell, with the heading turned
    by [rotateCCW] (the cycle N -> W -> S -> E -> N) when the cell is a
    PlayerObstacle or FixedObstacle and unchanged when it is Empty, and no
    continuing pass does anything else.  Along the returned path every
    entry records the stored cell kind, each entry's heading is the
    previous entry's heading turned exactly when the previous cell was an
    obstacle, and an entry whose next cell in the turned heading is in the
    grid is followed, below the step ceiling, by the entry for that
    cell. *)
Theorem rotation_rule (N : nat) (level : Level.t) (st : Grid)
    (res : SimulationResult.t) :
  traceRay N level st = Some res →
  (rotateCCW Dir.N = Dir.W ∧ rotateCCW Dir.W = Dir.S
   ∧ rotateCCW Dir.S = Dir.E ∧ rotateCCW Dir.E = Dir.N)
  ∧ (∀ s cellVal,
       let nr := Ray.r s + (dirToDelta (Ray.dir s)).1 in
       let nc := Ray.c s + (dirToDelta (Ray.dir s)).2 in
       isInside N nr nc = true →
       (nr, nc, Ray.dir s) ∉ Ray.visited s →
       cellAt st nr nc = Some cellVal →
       ∃ s', traceStep N level st s = Some (Continue s')
             ∧ Ray.r s' = nr ∧ Ray.c s' = nc
             ∧ Ray.dir s' = match cellVal with
                            | PlayerObstacle | FixedObstacle => rotateCCW (Ray.dir s)
                            | Empty => Ray.dir s
                            end)
  ∧ (∀ s s', traceStep N level st s = Some (Continue s') →
       ∃ cellVal,
         cellAt st (Ray.r s') (Ray.c s') = Some cellVal
         ∧ Ray.dir s' = match cellVal with
                        | PlayerObstacle | FixedObstacle => rotateCCW (Ray.dir s)
                        | Empty => Ray.dir s
                        end)
  ∧ (∀ i e, SimulationResult.path res !! i = Some e →
       cellAt st (PathEntry.r e) (PathEntry.c e) = Some (PathEntry.cellType e))
  ∧ (∀ i e e',
       SimulationResult.path res !! i = Some e →
       SimulationResult.path res !! S i = Some e' →
       PathEntry.dirBeforeCell e' =
         match PathEntry.cellType e with
         | PlayerObstacle | FixedObstacle => rotateCCW (PathEntry.dirBeforeCell e)
         | Empty => PathEntry.dirBeforeCell e
         end)
  ∧ (∀ i e,
       SimulationResult.path res !! i = Some e →
       (S i < 512)%nat →
       let turned := match PathEntry.cellType e with
                     | PlayerObstacle | FixedObstacle =>
                         rotateCCW (PathEntry.dirBeforeCell e)
                     | Empty => PathEntry.dirBeforeCell e
                     end in
       isInside N (PathEntry.r e + (dirToDelta turned).1)
                  (PathEntry.c e + (dirToDelta turned).2) = true →
       ∃ e',
         SimulationResult.path res !! S i = Some e'
         ∧ PathEntry.r e' = PathEntry.r e + (dirToDelta turned).1
         ∧ PathEntry.c e' = PathEntry.c e + (dirToDelta turned).2
         ∧ PathEntry.dirBeforeCell e' = turned).
Proof.
  intros Hres. split_and!; try done.
  - intros s cellVal nr nc Hins Hkey Hcell. rewrite traceStep_unfold. cbv zeta.
    fold nr nc. rewrite Hins. simpl. rewrite decide_False by done.
    rewrite Hcell. simpl. eexists. split; [reflexivity |]. simpl.
    split_and!; try done. by destruct cellVal.
  - intros s s' Hstep. rewrite traceStep_unfold in Hstep. cbv zeta in Hstep.
    destruct (isInside N _ _); simpl in Hstep.
    + case_decide; [done |].
      destruct (cellAt st _ _) as [cellVal|] eqn:Hcell; [| done].
      injection Hstep as <-. exists cellVal. split; [done |]. by destruct cellVal.
    + destruct (isInside N _ _); [| done].
      by destruct (computeExitSideAndIndex N _ _ _ _).
  - destruct (traceRay_ends _ _ _ _ Hres) as (k & _ & Hok & Hends & _).
    rewrite (trace_ends_path _ _ _ _ _ _ Hends).
    intros i e [Hi ->]%lookup_entries.
    by destruct (prefix_dir _ _ _ _ _ Hok Hi).
  - destruct (traceRay_ends _ _ _ _ Hres) as (k & _ & Hok & Hends & _).
    rewrite (trace_ends_path _ _ _ _ _ _ Hends).
    intros i e e' [Hi ->]%lookup_entries [Hi' ->]%lookup_entries.
    destruct (prefix_dir _ _ _ _ _ Hok Hi) as [_ Hdir].
    change (PathEntry.dirBeforeCell (entryAt st (entryStartOutside N level) (S i)))
      with (rayAfter st (S i) (entryStartOutside N level)).2.
    rewrite Hdir. unfold dirAfter.
    by destruct (PathEntry.cellType _).
  - destruct (traceRay_ends _ _ _ _ Hres) as (k & Hk & Hok & Hends & _).
    pose proof (trace_ends_path _ _ _ _ _ _ Hends) as Hpath. rewrite Hpath.
    intros i e [Hi ->]%lookup_entries Hceil turned Hnext.
    destruct (prefix_dir _ _ _ _ _ Hok Hi) as [_ Hdir].
    assert (Hturned : turned = (rayAfter st (S i) (entryStartOutside N level)).2).
    { rewrite Hdir. unfold turned, dirAfter. by destruct (PathEntry.cellType _). }
    assert (Hins : insideAfter N st (entryStartOutside N level) (S (S i))).
    { unfold insideAfter. rewrite (rayAfter_S st (S i)).
      destruct (advance_pos st (rayAfter st (S i) (entryStartOutside N level)))
        as [-> ->].
      rewrite <- Hturned. exact Hnext. }
    assert (Hlt : (S i < k)%nat).
    { destruct (decide (S i < k)%nat) as [| Hge]; [done |]. exfalso.
      assert (k = S i) as -> by lia.
      destruct Hok as [Hin Hdist].
      destruct Hends as [x ? Hout ? | Hnot ? | j ? Hj Heq | Hmax].
      - by apply Hout.
      - apply Hnot. by apply Hin.
      - eapply (enteredAt_fresh N st _ j (S i)); [| done | done | done].
        apply entryStartOutside_outside.
      - unfold maxSteps in Hmax. lia. }
    exists (entryAt st (entryStartOutside N level) (S i)).
    split; [by apply lookup_entries |].
    unfold entryAt at 1 3 5. cbn [PathEntry.r PathEntry.c PathEntry.dirBeforeCell].
    rewrite (rayAfter_S st (S i)).
    destruct (advance_pos st (rayAfter st (S i) (entryStartOutside N level)))
      as [-> ->].
    rewrite <- Hturned. done.
Qed.

Lemma rotation_rule_witness :
  ∃ res,
    traceRay theN theLevel crossingState = Some res
    ∧ (∀ i e e',
         SimulationResult.path res !! i = Some e →
         SimulationResult.path res !! S i = Some e' →
         PathEntry.dirBeforeCell e' =
           match PathEntry.cellType e with
           | PlayerObstacle | FixedObstacle => rotateCCW (PathEntry.dirBeforeCell e)
           | Empty => PathEntry.dirBeforeCell e
           end)
    ∧ (∀ i e,
         SimulationResult.path res !! i = Some e →
         (S i < 512)%nat →
         let turned := match PathEntry.cellType e with
                       | PlayerObstacle | FixedObstacle =>
                           rotateCCW (PathEntry.dirBeforeCell e)
                       | Empty => PathEntry.dirBeforeCell e
                       end in
         isInside theN (PathEntry.r e + (dirToDelta turned).1)
                       (PathEntry.c e + (dirToDelta turned).2) = true →
         ∃ e',
           SimulationResult.path res !! S i = Some e'
           ∧ PathEntry.r e' = PathEntry.r e + (dirToDelta turned).1
           ∧ PathEntry.c e' = PathEntry.c e + (dirToDelta turned).2
           ∧ PathEntry.dirBeforeCell e' = turned).
Proof.
  eexists. split; [vm_compute; reflexivity |].
  destruct (rotation_rule theN theLevel crossingState
              (default (SimulationResult.mk LOSE None [] NeverEntered)
                 (traceRay theN theLevel crossingState)))
    as (_ & _ & _ & _ & Hchain & Hnext).
  - vm_compute. reflexivity.
  - split; [exact Hchain | exact Hnext].
Defined.

(** One pass on the three-obstacle sample: the ray at (3, 4) heading east
    enters the obstacle at (3, 5) and goes on from there heading north. *)
Example rotation_rule_step :
  (λ x, match x with
        | Continue s' => Some (Ray.r s', Ray.c s', Ray.dir s')
        | Return _ => None
        end) <$>
    traceStep theN theLevel crossingState (Ray.mk 3 4 Dir.E ∅ [])
  = Some (Some (3, 5, Dir.N)).
Proof. vm_compute. reflexivity. Qed.

(** The headings along the path of the three-obstacle sample: east to the
    first obstacle, then north, west and south. *)
Example rotation_rule_crossing :
  (map PathEntry.dirBeforeCell ∘ SimulationResult.path) <$>
    traceRay theN theLevel crossingState
  = Some [Dir.E; Dir.E; Dir.E; Dir.E; Dir.E; Dir.E; Dir.N; Dir.N;
          Dir.W; Dir.W; Dir.S; Dir.S; Dir.S; Dir.S; Dir.S; Dir.S].
Proof. vm_compute. reflexivity. Qed.

Lemma computeExit_from_inside (N : nat) (r c : Z) (d : Dir.t) :
  isInside N r c = true →
  isInside N (r + (dirToDelta d).1) (c + (dirToDelta d).2) = false →
  computeExitSideAndIndex N r c (r + (dirToDelta d).1) (c + (dirToDelta d).2)
    = Some (BoundaryRef.mk (sideOfDir d)
              (match d with Dir.E | Dir.W => r | Dir.N | Dir.S => c end)).
Proof.
  unfold isInside, computeExitSideAndIndex. intros Hin Hout.
  destruct d; simpl in *; repeat case_match; try done; lia.
Qed.

(** C1: when the ray steps from an in-grid cell to an out-of-grid
    position the trace returns with the crossed boundary as exit info,
    whose side is the one the heading points at and whose index is the row
    (left/right) or column (top/bottom) of that last in-grid cell; the
    outcome is WIN exactly when this exit info equals the configured exit.
    On the 8 x 8 grid without obstacles, entering on the left at row 3
    reports side right, index 3. *)
Theorem exit_classification (N : nat) (level : Level.t) (st : Grid)
    (res : SimulationResult.t) :
  traceRay N level st = Some res →
  (SimulationResult.outcome res = WIN
   ↔ SimulationResult.exitInfo res = Some (Level.exit level))
  ∧ (∀ e, SimulationResult.exitInfo res = Some e →
       ∃ lastIn,
         last (SimulationResult.path res) = Some lastIn
         ∧ isInside N (PathEntry.r lastIn) (PathEntry.c lastIn) = true
         ∧ isInside N (PathEntry.r lastIn + (dirToDelta (dirAfter lastIn)).1)
                      (PathEntry.c lastIn + (dirToDelta (dirAfter lastIn)).2) = false
         ∧ BoundaryRef.side e = sideOfDir (dirAfter lastIn)
         ∧ BoundaryRef.index e =
             match BoundaryRef.side e with
             | Side.left | Side.right => PathEntry.r lastIn
             | Side.top | Side.bottom => PathEntry.c lastIn
             end)
  ∧ (∀ s,
       isInside N (Ray.r s) (Ray.c s) = true →
       isInside N (Ray.r s + (dirToDelta (Ray.dir s)).1)
                  (Ray.c s + (dirToDelta (Ray.dir s)).2) = false →
       ∃ e,
         traceStep N level st s =
           Some (Return (SimulationResult.mk
                           (if bool_decide (e = Level.exit level) then WIN else LOSE)
                           (Some e)
                           (Ray.path s)
                           (if bool_decide (e = Level.exit level)
                            then ExitedThroughExit else ExitedElsewhere e)))
         ∧ BoundaryRef.side e = sideOfDir (Ray.dir s)
         ∧ BoundaryRef.index e =
             match BoundaryRef.side e with
             | Side.left | Side.right => Ray.r s
             | Side.top | Side.bottom => Ray.c s
             end)
  ∧ (∀ exit,
       SimulationResult.exitInfo <$>
         traceRay 8 (Level.mk (BoundaryRef.mk Side.left 3) exit) (emptyGrid 8)
       = Some (Some (BoundaryRef.mk Side.right 3))).
Proof.
  intros Hres.
  destruct (traceRay_ends _ _ _ _ Hres) as (k & _ & Hok & Hends & _).
  split_and!.
  - destruct Hends; simpl; try done.
    case_bool_decide; split; congruence.
  - intros e He.
    destruct Hends as [e' Hin Hout Hexit | | |]; simpl in He; try done.
    injection He as ->.
    destruct k as [| k].
    { by apply entryStartOutside_outside in Hin. }
    destruct (prefix_dir _ _ _ _ k Hok) as [_ Hdir]; [lia |].
    exists (entryAt st (entryStartOutside N level) k).
    cbn [SimulationResult.path]. rewrite seq_S, fmap_app.
    change (entryAt st (entryStartOutside N level) <$> [(0 + k)%nat])
      with [entryAt st (entryStartOutside N level) k].
    rewrite last_snoc.
    split; [done |]. rewrite <- Hdir.
    change (PathEntry.r (entryAt st (entryStartOutside N level) k))
      with (rayAfter st (S k) (entryStartOutside N level)).1.1.
    change (PathEntry.c (entryAt st (entryStartOutside N level) k))
      with (rayAfter st (S k) (entryStartOutside N level)).1.2.
    assert (Hnext : isInside N
              ((rayAfter st (S k) (entryStartOutside N level)).1.1
               + (dirToDelta (rayAfter st (S k) (entryStartOutside N level)).2).1)
              ((rayAfter st (S k) (entryStartOutside N level)).1.2
               + (dirToDelta (rayAfter st (S k) (entryStartOutside N level)).2).2)
            = false).
    { apply not_true_is_false. intros Hin'. apply Hout. unfold insideAfter.
      rewrite (rayAfter_S st (S k)).
      destruct (advance_pos st (rayAfter st (S k) (entryStartOutside N level)))
        as [-> ->]. done. }
    rewrite (computeExit_from_inside N _ _ _ Hin Hnext) in Hexit.
    injection Hexit as <-. simpl.
    split_and!; try done.
    by destruct (rayAfter st (S k) (entryStartOutside N level)).2.
  - intros s Hin Hout. rewrite traceStep_unfold. cbv zeta.
    rewrite Hout, Hin. simpl.
    rewrite (computeExit_from_inside N _ _ _ Hin Hout). simpl.
    eexists. split; [reflexivity |]. simpl. split; [done |].
    by destruct (Ray.dir s).
  - intros exit. vm_compute. reflexivity.
Qed.

Lemma exit_classification_witness :
  ∃ res,
    traceRay theN theLevel initialState = Some res
    ∧ SimulationResult.exitInfo res = Some (BoundaryRef.mk Side.top 6)
    ∧ SimulationResult.outcome res = LOSE
    ∧ (SimulationResult.outcome res = WIN
       ↔ SimulationResult.exitInfo res = Some (Level.exit theLevel)).
Proof.
  eexists. split; [vm_compute; reflexivity |].
  split; [reflexivity |]. split; [reflexivity |].
  apply (exit_classification theN theLevel initialState).
  vm_compute. reflexivity.
Defined.

(** With the exit moved to where the ray of the reference level leaves,
    the same trace wins. *)
Example exit_classification_win :
  (λ res, (SimulationResult.outcome res, SimulationResult.exitInfo res)) <$>
    traceRay theN (Level.mk (BoundaryRef.mk Side.left 3) (BoundaryRef.mk Side.top 6))
             initialState
  = Some (WIN, Some (BoundaryRef.mk Side.top 6)).
Proof. vm_compute. reflexivity. Qed.

(** C6: a pass whose next cell is in the grid returns LOSE with the
    loop-detection reason exactly when the (row, col, direction) triple it
    is about to enter is in the memo, and otherwise records the triple and
    continues, also on a cell entered before with another direction.  Run
    from any position with an empty memo, the loop of [traceRay] returns
    the loop-detection reason exactly when, within the step ceiling and
    while the ray is in the grid, it enters a triple it has entered before;
    the trace itself is the case of the position [entryStartOutside]. *)
Theorem loop_detection (N : nat) (level : Level.t) (st : Grid)
    (r c : Z) (dir : Dir.t) (res : SimulationResult.t) :
  traceLoop N level st maxSteps (Ray.mk r c dir ∅ []) = Some res →
  (SimulationResult.reason res = LoopDetected
   ↔ ∃ i j, (i < j < 512)%nat
            ∧ (∀ m, (m ≤ j)%nat → insideAfter N st (r, c, dir) (S m))
            ∧ enteredAt st (r, c, dir) i = enteredAt st (r, c, dir) j)
  ∧ (SimulationResult.reason res = LoopDetected →
     SimulationResult.outcome res = LOSE ∧ SimulationResult.exitInfo res = None)
  ∧ (∀ s,
       let nr := Ray.r s + (dirToDelta (Ray.dir s)).1 in
       let nc := Ray.c s + (dirToDelta (Ray.dir s)).2 in
       isInside N nr nc = true →
       ((nr, nc, Ray.dir s) ∈ Ray.visited s
        ↔ traceStep N level st s
          = Some (Return (SimulationResult.mk LOSE None (Ray.path s) LoopDetected))))
  ∧ (∀ s res',
       traceStep N level st s = Some (Return res') →
       SimulationResult.reason res' = LoopDetected →
       isInside N (Ray.r s + (dirToDelta (Ray.dir s)).1)
                  (Ray.c s + (dirToDelta (Ray.dir s)).2) = true
       ∧ (Ray.r s + (dirToDelta (Ray.dir s)).1,
          Ray.c s + (dirToDelta (Ray.dir s)).2, Ray.dir s) ∈ Ray.visited s)
  ∧ (∀ s cellVal,
       let nr := Ray.r s + (dirToDelta (Ray.dir s)).1 in
       let nc := Ray.c s + (dirToDelta (Ray.dir s)).2 in
       isInside N nr nc = true →
       (nr, nc, Ray.dir s) ∉ Ray.visited s →
       cellAt st nr nc = Some cellVal →
       ∃ s', traceStep N level st s = Some (Continue s')
             ∧ Ray.r s' = nr ∧ Ray.c s' = nc
             ∧ Ray.visited s' = {[ (nr, nc, Ray.dir s) ]} ∪ Ray.visited s
             ∧ Ray.path s' = Ray.path s ++ [PathEntry.mk nr nc (Ray.dir s) cellVal])
  ∧ (∀ res',
       traceRay N level st = Some res' →
       (SimulationResult.reason res' = LoopDetected
        ↔ ∃ i j, (i < j < 512)%nat
                 ∧ (∀ m, (m ≤ j)%nat →
                         insideAfter N st (entryStartOutside N level) (S m))
                 ∧ enteredAt st (entryStartOutside N level) i
                   = enteredAt st (entryStartOutside N level) j)).
Proof.
  assert (Hgen : ∀ p res0,
    (∃ k, (k ≤ maxSteps)%nat ∧ prefix_ok N st p k ∧ trace_ends N level st p k res0
          ∧ (SimulationResult.reason res0 ≠ StepLimitReached → (k < maxSteps)%nat)) →
    (SimulationResult.reason res0 = LoopDetected
     ↔ ∃ i j, (i < j < 512)%nat
              ∧ (∀ m, (m ≤ j)%nat → insideAfter N st p (S m))
              ∧ enteredAt st p i = enteredAt st p j)).
  { intros p res0 (k & Hk & [Hin Hdist] & Hends & Hlt). split.
    - intros Hreason.
      destruct Hends as [e ? ? ? | ? ? | i Hins Hi Heq | ?]; simpl in *; try done.
      { by case_bool_decide. }
      exists i, k. split_and!; [done | | | done].
      + unfold maxSteps in Hlt. apply Hlt. done.
      + intros m Hm. destruct (decide (m = k)) as [-> | Hne]; [done |].
        apply Hin. lia.
    - intros (i & j & Hij & Hall & Heq).
      destruct (decide (j < k)%nat) as [Hjk | Hjk].
      { exfalso. apply (Hdist i j); [lia | done]. }
      destruct Hends as [e ? Hout ? | ? Hout | ? ? ? ? | Hmax]; simpl; try done.
      + exfalso. apply Hout, Hall. lia.
      + exfalso. apply Hout, Hall. lia.
      + unfold maxSteps in Hmax. lia. }
  intros Hres.
  assert (Hends : ∃ k, (k ≤ maxSteps)%nat ∧ prefix_ok N st (r, c, dir) k
                       ∧ trace_ends N level st (r, c, dir) k res
                       ∧ (SimulationResult.reason res ≠ StepLimitReached
                          → (k < maxSteps)%nat)).
  { eapply (traceLoop_ends N level st (r, c, dir) maxSteps 0); [| done | exact Hres].
    by apply trace_inv_start. }
  split_and!.
  - by apply Hgen.
  - destruct Hends as (k & _ & _ & Hends & _).
    destruct Hends; simpl; try done. by case_bool_decide.
  - intros s nr nc Hins. rewrite traceStep_unfold. cbv zeta.
    fold nr nc. rewrite Hins. simpl. split.
    + intros Hkey. by rewrite decide_True.
    + case_decide; [done |]. by destruct (cellAt st nr nc).
  - intros s res' Hstep Hreason. rewrite traceStep_unfold in Hstep. cbv zeta in Hstep.
    destruct (isInside N (Ray.r s + _) _) eqn:Hnext; simpl in Hstep.
    + split; [done |]. case_decide; [done |]. by destruct (cellAt st _ _).
    + destruct (isInside N (Ray.r s) (Ray.c s)).
      * destruct (computeExitSideAndIndex N _ _ _ _); [| done].
        simpl in Hstep. injection Hstep as <-. simpl in Hreason.
        by case_bool_decide.
      * by injection Hstep as <-.
  - intros s cellVal nr nc Hins Hkey Hcell. rewrite traceStep_unfold. cbv zeta.
    fold nr nc. rewrite Hins. simpl. rewrite decide_False by done.
    rewrite Hcell. simpl. eexists. split; [reflexivity |]. done.
  - intros res' Hres'. apply Hgen. by apply traceRay_ends.
Qed.

Lemma loop_detection_witness :
  ∃ res,
    traceLoop theN theLevel cycleState maxSteps cycleStart = Some res
    ∧ SimulationResult.reason res = LoopDetected
    ∧ length (SimulationResult.path res) = 4%nat
    ∧ ∃ i j, (i < j < 512)%nat
             ∧ (∀ m, (m ≤ j)%nat → insideAfter theN cycleState (4, 3, Dir.E) (S m))
             ∧ enteredAt cycleState (4, 3, Dir.E) i = enteredAt cycleState (4, 3, Dir.E) j.
Proof.
  eexists. split; [vm_compute; reflexivity |].
  split; [reflexivity |]. split; [reflexivity |].
  apply (loop_detection theN theLevel cycleState 4 3 Dir.E
           (default (SimulationResult.mk LOSE None [] NeverEntered)
              (traceLoop theN theLevel cycleState maxSteps cycleStart))).
  - vm_compute. reflexivity.
  - reflexivity.
Defined.

(** The memo at work: with the triple of the next cell already recorded
    the pass returns the loop result; with the same cell recorded under
    another direction it continues. *)
Example loop_detection_memo :
  traceStep theN theLevel crossingState
            (Ray.mk 3 2 Dir.E {[ (3, 3, Dir.E) ]} [])
  = Some (Return (SimulationResult.mk LOSE None [] LoopDetected))
  ∧ (λ x, match x with
          | Continue s' => Some (Ray.r s', Ray.c s', Ray.dir s')
          | Return _ => None
          end) <$>
      traceStep theN theLevel crossingState
                (Ray.mk 3 2 Dir.E {[ (3, 3, Dir.S) ]} [])
    = Some (Some (3, 3, Dir.E)).
Proof. split; vm_compute; reflexivity. Qed.

(** On the three-obstacle sample the ray enters cell (3, 3) twice, first
    heading east and later heading south, and still leaves through the
    bottom boundary. *)
Example loop_detection_crossing :
  (λ res, (filter (λ key, key.1 = (3, 3)) (keyOf <$> SimulationResult.path res),
           SimulationResult.exitInfo res)) <$>
    traceRay theN theLevel crossingState
  = Some ([(3, 3, Dir.E); (3, 3, Dir.S)], Some (BoundaryRef.mk Side.bottom 3)).
Proof. vm_compute. reflexivity. Qed.

(** C7: on every N x N grid and for every entry the trace returns a
    result; its path has at most 512 entries; a ray still in the grid after
    each of 512 moves gives LOSE with the step-limit reason, and that reason
    is given in no other case; an entry index outside [0, N), where the ray
    never enters the grid, gives LOSE with the never-entered reason and an
    empty path. *)
Theorem traceRay_terminates (N : nat) (level : Level.t) (st : Grid) :
  wf_grid N st →
  ∃ res,
    traceRay N level st = Some res
    ∧ (length (SimulationResult.path res) ≤ 512)%nat
    ∧ ((∀ m, (m < 512)%nat → insideAfter N st (entryStartOutside N level) (S m))
       ↔ SimulationResult.reason res = StepLimitReached)
    ∧ (SimulationResult.reason res = StepLimitReached →
       SimulationResult.outcome res = LOSE
       ∧ SimulationResult.exitInfo res = None
       ∧ length (SimulationResult.path res) = 512%nat)
    ∧ (¬ (0 ≤ BoundaryRef.index (Level.entry level) < Z.of_nat N) →
       res = SimulationResult.mk LOSE None [] NeverEntered)
    ∧ (SimulationResult.reason res = NeverEntered →
       SimulationResult.outcome res = LOSE).
Proof.
  intros Hwf. destruct (traceRay_total N level st Hwf) as [res Hres].
  exists res. split; [done |].
  destruct (traceRay_ends _ _ _ _ Hres) as (k & Hk & [Hin Hdist] & Hends & Hlt).
  pose proof (entryStartOutside_outside N level st) as Hstart.
  pose proof (trace_ends_path _ _ _ _ _ _ Hends) as Hpath.
  split_and!.
  - rewrite Hpath, length_fmap, length_seq. exact Hk.
  - split.
    + intros Hall.
      destruct Hends as [e ? Hout ? | ? Hout | i ? Hi Heq | ?]; simpl in *; try done.
      * exfalso. apply Hout, Hall.
        assert (k < maxSteps)%nat by (apply Hlt; by case_bool_decide).
        unfold maxSteps in *. lia.
      * exfalso. apply Hout, Hall.
        assert (k < maxSteps)%nat by (by apply Hlt).
        unfold maxSteps in *. lia.
      * exfalso. by eapply (enteredAt_fresh N st _ i k).
    + intros Hreason m Hm.
      destruct Hends as [e ? ? ? | ? ? | ? ? ? ? | Hmax]; simpl in *; try done.
      { by case_bool_decide. }
      apply Hin. unfold maxSteps in Hmax. lia.
  - intros Hreason.
    destruct Hends as [e ? ? ? | ? ? | ? ? ? ? | Hmax]; simpl in *; try done.
    { by case_bool_decide. }
    rewrite length_fmap, length_seq. done.
  - intros Hidx.
    assert (¬ insideAfter N st (entryStartOutside N level) 1) as Hout1.
    { unfold insideAfter. rewrite (rayAfter_S st 0).
      destruct (advance_pos st (rayAfter st 0 (entryStartOutside N level))) as [-> ->].
      unfold rayAfter, entryStartOutside, isInside.
      destruct (BoundaryRef.side (Level.entry level)); simpl; lia. }
    destruct k as [| k].
    + destruct Hends as [e Hins ? ? | ? ? | ? ? Hi ? | Hmax]; simpl in *; done.
    + exfalso. destruct (Hin 0%nat) as [Hins _]; [lia | done].
  - destruct Hends; simpl; try done. by case_bool_decide.
Qed.

Lemma traceRay_terminates_witness :
  ∃ res,
    traceRay theN theLevel initialState = Some res
    ∧ (length (SimulationResult.path res) ≤ 512)%nat.
Proof.
  destruct (traceRay_terminates theN theLevel initialState) as (res & Hres & Hlen & _).
  - split; [reflexivity | vm_compute; repeat constructor].
  - exists res. split; [exact Hres | exact Hlen].
Defined.

(** An entry index past the last row: the ray never enters the grid. *)
Example traceRay_never_entered :
  traceRay theN (Level.mk (BoundaryRef.mk Side.left 8) (BoundaryRef.mk Side.bottom 5))
           initialState
  = Some (SimulationResult.mk LOSE None [] NeverEntered).
Proof. vm_compute. reflexivity. Qed.

(** A long straight run: on a 600 x 600 grid without obstacles the ray is
    still inside after 512 moves and the step ceiling ends the trace. *)
Example traceRay_step_limit :
  (λ res, (SimulationResult.outcome res, SimulationResult.reason res,
           length (SimulationResult.path res))) <$>
    traceRay 600 theLevel (emptyGrid 600)
  = Some (LOSE, StepLimitReached, 512%nat).
Proof. vm_compute. reflexivity. Qed.

(** ** The signal decoder *)

Lemma toggleCell_with_signalBuffer (g : Game) (buf : list RawSignal.t) (r c : Z) :
  toggleCell (with_signalBuffer g buf) r c
  = (λ g', with_signalBuffer g' buf) <$> toggleCell g r c.
Proof.
  unfold toggleCell. simpl.
  destruct (cellAt (state g) r c) as [v|]; [| done]. simpl.
  by destruct (coverVisible g), v.
Qed.

Lemma resetPlayerObstacles_signalBuffer (N : nat) (g g' : Game) :
  resetPlayerObstacles N g = Some g' →
  signalBuffer g' = signalBuffer g ∧ signal9Timer g' = signal9Timer g.
Proof.
  unfold resetPlayerObstacles.
  destruct (resetRows N (state g)); [| done]. simpl. intros [= <-]. done.
Qed.

Lemma filter_is9_not9 (buf : list RawSignal.t) :
  filter (λ item, RawSignal.signal item ≠ 9)
         (filter (λ item, RawSignal.signal item = 9) buf) = [].
Proof.
  induction buf as [| x buf IH]; [done |].
  rewrite filter_cons. case_decide as Hx; [| done].
  rewrite filter_cons, decide_False by (intros H; by apply H). done.
Qed.

Lemma filter_not9_idemp (buf : list RawSignal.t) :
  filter (λ item, RawSignal.signal item ≠ 9)
         (filter (λ item, RawSignal.signal item ≠ 9) buf)
  = filter (λ item, RawSignal.signal item ≠ 9) buf.
Proof. rewrite list_filter_filter. apply list_filter_iff. tauto. Qed.

Section Decoder.
Variable N : nat.
Variable signalTimeoutMs : Z.

(** What the pruning step of the coordinate track keeps. *)
Lemma prune_not9 (buf : list RawSignal.t) (now : Z) :
  filter (λ item, RawSignal.signal item = 9)
    (filter (λ item, now - RawSignal.timestamp item ≤ signalTimeoutMs
                     ∧ RawSignal.signal item ≠ 9) buf) = [].
Proof.
  induction buf as [| x buf IH]; [done |].
  rewrite filter_cons. case_decide as Hx; [| done].
  rewrite filter_cons, decide_False by tauto. done.
Qed.

(** After any coordinate signal the buffer holds no 9 at all, whatever it
    held before. *)
Lemma processSignal_coordinate_drops_9 (g g' : Game) (signal timestamp : Z)
    (out : list Command) :
  signal ≠ 9 →
  processSignal N signalTimeoutMs g signal timestamp = Some (g', out) →
  filter (λ item, RawSignal.signal item = 9) (signalBuffer g') = [].
Proof.
  intros Hs. unfold processSignal. rewrite decide_False by done.
  cbv zeta. cbn [signalBuffer with_signalBuffer].
  set (pruned := filter _ (signalBuffer g)).
  assert (Hp : filter (λ item, RawSignal.signal item = 9) pruned = [])
    by apply prune_not9.
  assert (Hbuf2 : filter (λ item, RawSignal.signal item = 9)
                    (pruned ++ [RawSignal.mk signal timestamp]) = []).
  { rewrite filter_app, Hp. simpl. rewrite filter_cons, decide_False by done. done. }
  assert (Hidem : ∀ l : list RawSignal.t,
            filter (λ item, RawSignal.signal item = 9)
              (filter (λ item, RawSignal.signal item = 9) l)
            = filter (λ item, RawSignal.signal item = 9) l).
  { intros l. rewrite list_filter_filter. apply list_filter_iff. tauto. }
  case_decide as Hlen.
  - destruct (drop _ _) as [| first [| second [| ? ?]]] eqn:Hdrop; try done.
    assert (Hsecond : RawSignal.signal second ≠ 9).
    { assert (Hel : second ∈ drop (length (filter (λ item, RawSignal.signal item ≠ 9)
                                      (pruned ++ [RawSignal.mk signal timestamp])) - 2)
                              (filter (λ item, RawSignal.signal item ≠ 9)
                                      (pruned ++ [RawSignal.mk signal timestamp]))).
      { rewrite Hdrop. set_solver. }
      apply list_elem_of_lookup in Hel as [i Hi]. rewrite lookup_drop in Hi.
      apply list_elem_of_lookup_2 in Hi. by apply list_elem_of_filter in Hi as [? _]. }
    case_decide.
    + case_decide.
      * rewrite !toggleCell_with_signalBuffer.
        destruct (toggleCell g _ _) as [g1|]; [| done].
        simpl. intros [= <- _]. simpl. rewrite Hidem. exact Hbuf2.
      * intros [= <- _]. simpl. rewrite Hidem. exact Hbuf2.
    + intros [= <- _]. simpl. rewrite filter_app, Hidem, Hbuf2. simpl.
      rewrite filter_cons, decide_False by done. done.
  - intros [= <- _]. simpl. exact Hbuf2.
Qed.
(** The coordinate track never holds more than one signal between events:
    a step that sees two of them either pairs them and clears the track or
    keeps only the later one. *)
Lemma coordinate_track_at_most_one (g g' : Game) (ev : Event) (out : list Command) :
  onEvent N signalTimeoutMs g ev = Some (g', out) →
  (length (filter (λ item, RawSignal.signal item ≠ 9%Z) (signalBuffer g)) ≤ 1)%nat →
  (length (filter (λ item, RawSignal.signal item ≠ 9%Z) (signalBuffer g')) ≤ 1)%nat.
Proof.
  destruct ev as [signal timestamp |]; simpl.
  - unfold processSignal. case_decide as Hs.
    + cbv zeta.
      set (g0 := match signal9Timer g with
                 | Some _ => with_signal9Timer g None
                 | None => g
                 end).
      assert (Hbuf : signalBuffer g0 = signalBuffer g)
        by (unfold g0; by destruct (signal9Timer g)).
      case_decide.
      * destruct (resetPlayerObstacles N _) as [g1|] eqn:Hreset; [| done].
        simpl. intros [= <- _].
        apply resetPlayerObstacles_signalBuffer in Hreset as [-> _].
        simpl. by rewrite Hbuf, filter_not9_idemp.
      * intros [= <- _]. simpl.
        rewrite Hbuf, filter_app, filter_cons, decide_False by (simpl; tauto).
        by rewrite filter_nil, app_nil_r.
    + cbv zeta. cbn [signalBuffer with_signalBuffer].
      set (buf2 := filter _ (signalBuffer g) ++ [RawSignal.mk signal timestamp]).
      case_decide as Hlen.
      * destruct (drop _ _) as [| first [| second [| ? ?]]]; try done.
        case_decide.
        -- case_decide.
           ++ rewrite !toggleCell_with_signalBuffer.
              destruct (toggleCell g _ _) as [g1|]; [| done].
              simpl. intros [= <- _] _. simpl. rewrite filter_is9_not9. simpl. lia.
           ++ intros [= <- _] _. simpl. rewrite filter_is9_not9. simpl. lia.
        -- intros [= <- _] _. simpl. rewrite filter_app, filter_is9_not9. simpl.
           rewrite filter_cons. case_decide; rewrite filter_nil; simpl; lia.
      * intros [= <- _] _. simpl. lia.
  - destruct (signal9Timer g); [| by intros [= <- _]].
    unfold signal9TimerCallback. case_decide; intros [= <- _]; simpl; [| done].
    by rewrite filter_not9_idemp.
Qed.
End Decoder.

Lemma toggleCell_is_Some (N : nat) (g : Game) (r c : Z) :
  wf_grid N (state g) → 0 ≤ r < Z.of_nat N → 0 ≤ c < Z.of_nat N →
  is_Some (toggleCell g r c).
Proof.
  intros Hwf Hr Hc. destruct (cellAt_wf_is_Some N _ r c Hwf Hr Hc) as [v Hv].
  unfold toggleCell. rewrite Hv. simpl.
  by destruct (coverVisible g), v.
Qed.

Lemma filter_none_stale {A} (P : A → Prop) `{!∀ x, Decision (P x)} (l : list A) :
  (∀ x, x ∈ l → ¬ P x) → filter P l = [].
Proof.
  induction l as [| x l IH]; intros Hnone; [done |].
  rewrite filter_cons_False by (apply Hnone; by left).
  apply IH. intros y Hy. apply Hnone. by right.
Qed.

(** The second signal of a pair: with one coordinate signal [first]
    buffered, a coordinate signal arriving no earlier than it and within the
    window makes the decoder call toggleCell(first - 1, second - 1), once
    both lie in [0, N), and empties the buffer; one arriving after more than
    the window calls nothing and leaves just the new signal in the buffer. *)
Lemma coordinate_pairing_step (N : nat) (signalTimeoutMs : Z) (g : Game)
    (first : RawSignal.t) (signal timestamp : Z) :
  wf_grid N (state g) →
  1 ≤ RawSignal.signal first ≤ 8 →
  1 ≤ signal ≤ 8 →
  filter (λ item, RawSignal.signal item ≠ 9) (signalBuffer g) = [first] →
  (0 ≤ timestamp - RawSignal.timestamp first ≤ signalTimeoutMs →
   RawSignal.signal first - 1 < Z.of_nat N →
   signal - 1 < Z.of_nat N →
   ∃ g',
     toggleCell g (RawSignal.signal first - 1) (signal - 1) = Some g'
     ∧ processSignal N signalTimeoutMs g signal timestamp
       = Some (with_signalBuffer g' [],
               [ToggleCell (RawSignal.signal first - 1) (signal - 1)]))
  ∧ (signalTimeoutMs < timestamp - RawSignal.timestamp first →
     processSignal N signalTimeoutMs g signal timestamp
     = Some (with_signalBuffer g [RawSignal.mk signal timestamp], [])).
Proof.
  intros Hwf Hfirst Hsignal Hbuf.
  assert (Hpruned : filter (λ item, timestamp - RawSignal.timestamp item ≤ signalTimeoutMs
                                    ∧ RawSignal.signal item ≠ 9) (signalBuffer g)
                    = filter (λ item, timestamp - RawSignal.timestamp item ≤ signalTimeoutMs)
                             [first]).
  { rewrite <- Hbuf. by rewrite list_filter_filter. }
  split.
  - intros Hgap Hr Hc.
    destruct (toggleCell_is_Some N g (RawSignal.signal first - 1) (signal - 1))
      as [g' Hg']; [done | lia | lia |].
    exists g'. split; [done |].
    rewrite filter_cons_True in Hpruned by lia.
    assert (Hcoord : filter (λ item, RawSignal.signal item ≠ 9)
                       ([first] ++ [RawSignal.mk signal timestamp])
                     = [first; RawSignal.mk signal timestamp]).
    { simpl. rewrite filter_cons_True by lia.
      rewrite filter_cons_True by (simpl; lia). done. }
    assert (Hnines : filter (λ item, RawSignal.signal item = 9)
                       ([first] ++ [RawSignal.mk signal timestamp]) = []).
    { simpl. rewrite filter_cons_False by lia.
      rewrite filter_cons_False by (simpl; lia). done. }
    unfold processSignal. rewrite (decide_False (P := signal = 9)) by lia.
    cbv zeta. cbn [signalBuffer with_signalBuffer].
    rewrite Hpruned, filter_nil, Hcoord.
    cbn [length Nat.sub drop RawSignal.signal RawSignal.timestamp].
    case_decide; [| lia]. case_decide; [| lia]. case_decide; [| lia].
    rewrite !toggleCell_with_signalBuffer, Hg'.
    cbn [fmap option_fmap option_map mbind option_bind signalBuffer with_signalBuffer].
    by rewrite Hnines.
  - intros Hgap.
    rewrite filter_cons_False in Hpruned by lia.
    assert (Hcoord : filter (λ item, RawSignal.signal item ≠ 9)
                       ([] ++ [RawSignal.mk signal timestamp])
                     = [RawSignal.mk signal timestamp]).
    { simpl. rewrite filter_cons_True by (simpl; lia). done. }
    unfold processSignal. rewrite (decide_False (P := signal = 9)) by lia.
    cbv zeta. cbn [signalBuffer with_signalBuffer].
    rewrite Hpruned, filter_nil, Hcoord.
    cbn [length]. case_decide; [lia |]. done.
Qed.

(** The first signal of a pair: on a coordinate track with nothing of the
    last window on it, a coordinate signal calls nothing and is stored as
    the only entry of the buffer. *)
Lemma coordinate_first_stored (N : nat) (signalTimeoutMs : Z) (g : Game)
    (signal timestamp : Z) :
  signal ≠ 9 →
  (∀ item, item ∈ signalBuffer g → RawSignal.signal item ≠ 9 →
           signalTimeoutMs < timestamp - RawSignal.timestamp item) →
  processSignal N signalTimeoutMs g signal timestamp
  = Some (with_signalBuffer g [RawSignal.mk signal timestamp], []).
Proof.
  intros Hsignal Hstale.
  assert (Hpruned : filter (λ item, timestamp - RawSignal.timestamp item ≤ signalTimeoutMs
                                    ∧ RawSignal.signal item ≠ 9) (signalBuffer g) = []).
  { apply filter_none_stale. intros item Hin [Hrecent H9].
    specialize (Hstale item Hin H9). lia. }
  unfold processSignal. rewrite (decide_False (P := signal = 9)) by done.
  cbv zeta. cbn [signalBuffer with_signalBuffer].
  rewrite Hpruned. cbn [app]. rewrite filter_cons_True by done. rewrite filter_nil.
  cbn [length]. case_decide; [lia |]. done.
Qed.

(** C3: from a coordinate track with nothing of the last window on it, two
    coordinate signals [a@t0], [b@t1] (values 1 to 8): the first is stored
    and calls nothing; if [t1 - t0] is non-negative and within the window
    the run calls toggleCell(a - 1, b - 1), once both lie in [0, N), and
    nothing else, and empties the buffer; if [t1 - t0] exceeds the window
    the run calls nothing and leaves only [b@t1] in the buffer.  The same
    holds for the second signal alone whenever exactly one coordinate
    signal is buffered. *)
Theorem coordinate_pairing (N : nat) (signalTimeoutMs : Z) (g : Game)
    (a t0 b t1 : Z) :
  wf_grid N (state g) →
  1 ≤ a ≤ 8 →
  1 ≤ b ≤ 8 →
  (∀ item, item ∈ signalBuffer g → RawSignal.signal item ≠ 9 →
           signalTimeoutMs < t0 - RawSignal.timestamp item) →
  run N signalTimeoutMs g [Signal a t0]
  = Some (with_signalBuffer g [RawSignal.mk a t0], [])
  ∧ (0 ≤ t1 - t0 ≤ signalTimeoutMs →
     a - 1 < Z.of_nat N →
     b - 1 < Z.of_nat N →
     ∃ g',
       toggleCell g (a - 1) (b - 1) = Some g'
       ∧ run N signalTimeoutMs g [Signal a t0; Signal b t1]
         = Some (with_signalBuffer g' [], [ToggleCell (a - 1) (b - 1)]))
  ∧ (signalTimeoutMs < t1 - t0 →
     run N signalTimeoutMs g [Signal a t0; Signal b t1]
     = Some (with_signalBuffer g [RawSignal.mk b t1], []))
  ∧ (∀ (g0 : Game) (first : RawSignal.t),
       wf_grid N (state g0) →
       1 ≤ RawSignal.signal first ≤ 8 →
       filter (λ item, RawSignal.signal item ≠ 9) (signalBuffer g0) = [first] →
       (0 ≤ t1 - RawSignal.timestamp first ≤ signalTimeoutMs →
        RawSignal.signal first - 1 < Z.of_nat N →
        b - 1 < Z.of_nat N →
        ∃ g',
          toggleCell g0 (RawSignal.signal first - 1) (b - 1) = Some g'
          ∧ processSignal N signalTimeoutMs g0 b t1
            = Some (with_signalBuffer g' [],
                    [ToggleCell (RawSignal.signal first - 1) (b - 1)]))
       ∧ (signalTimeoutMs < t1 - RawSignal.timestamp first →
          processSignal N signalTimeoutMs g0 b t1
          = Some (with_signalBuffer g0 [RawSignal.mk b t1], []))).
Proof.
  intros Hwf Ha Hb Hstale.
  pose proof (coordinate_first_stored N signalTimeoutMs g a t0 ltac:(lia) Hstale) as H1.
  assert (Hfilter : filter (λ item, RawSignal.signal item ≠ 9)
                      (signalBuffer (with_signalBuffer g [RawSignal.mk a t0]))
                    = [RawSignal.mk a t0]).
  { simpl. rewrite filter_cons_True by (simpl; lia). done. }
  destruct (coordinate_pairing_step N signalTimeoutMs
              (with_signalBuffer g [RawSignal.mk a t0]) (RawSignal.mk a t0) b t1)
    as [Hpair Hlate]; [done | simpl; lia | done | done |].
  cbn [RawSignal.signal RawSignal.timestamp] in Hpair, Hlate.
  split_and!.
  - cbn [run onEvent]. rewrite H1. done.
  - intros Hgap Hr Hc.
    destruct (Hpair Hgap Hr Hc) as (g1 & Hg1 & Hp).
    rewrite toggleCell_with_signalBuffer in Hg1.
    destruct (toggleCell g (a - 1) (b - 1)) as [g'|]; [| done].
    simpl in Hg1. injection Hg1 as <-.
    exists g'. split; [done |].
    cbn [run onEvent]. rewrite H1. cbn [mbind option_bind]. rewrite Hp. done.
  - intros Hgap.
    cbn [run onEvent]. rewrite H1. cbn [mbind option_bind].
    rewrite (Hlate Hgap). done.
  - intros g0 first Hwf0 Hfirst Hbuf0.
    by apply coordinate_pairing_step.
Qed.

Lemma coordinate_pairing_witness :
  ∃ g',
    toggleCell newGame 2 4 = Some g'
    ∧ run theN theTimeout newGame [Signal 3 1000; Signal 5 1200]
      = Some (with_signalBuffer g' [], [ToggleCell 2 4]).
Proof.
  apply (coordinate_pairing theN theTimeout newGame 3 1000 5 1200).
  - split; [reflexivity | vm_compute; repeat constructor].
  - vm_compute; split; discriminate.
  - vm_compute; split; discriminate.
  - intros item Hin. by apply elem_of_nil in Hin.
  - vm_compute; split; discriminate.
  - reflexivity.
  - reflexivity.
Defined.

(** The two sequences of the coordinate track on the reference game:
    [3@1000, 5@1200] toggles cell (2, 4) and empties the buffer;
    [3@1000, 5@5000] calls nothing and keeps only the 5. *)
Example coordinate_pairing_sequences :
  (λ x, (signalBuffer x.1, x.2)) <$>
     run theN theTimeout newGame [Signal 3 1000; Signal 5 1200]
  = Some ([], [ToggleCell 2 4])
  ∧ (λ x, (signalBuffer x.1, x.2)) <$>
       run theN theTimeout newGame [Signal 3 1000; Signal 5 5000]
    = Some ([RawSignal.mk 5 5000], []).
Proof. split; vm_compute; reflexivity. Qed.

Section CommandTrack.
Variable N : nat.
Variable signalTimeoutMs : Z.

Lemma filter_is9_nil_not9 (buf : list RawSignal.t) :
  filter (λ item, RawSignal.signal item = 9) buf = [] →
  filter (λ item, RawSignal.signal item ≠ 9) buf = buf.
Proof.
  induction buf as [| x buf IH]; [done |].
  rewrite !filter_cons. case_decide; [done |].
  rewrite decide_True by done. intros ?. f_equal. by apply IH.
Qed.

Lemma recent9_nil (buf : list RawSignal.t) (now : Z) :
  filter (λ item, RawSignal.signal item = 9) buf = [] →
  filter (λ item, RawSignal.signal item = 9
                  ∧ now - RawSignal.timestamp item ≤ signalTimeoutMs) buf = [].
Proof.
  induction buf as [| x buf IH]; [done |].
  rewrite !filter_cons. case_decide; [done |].
  intros Hn. rewrite decide_False by tauto. by apply IH.
Qed.

(** A single 9 on a buffer without 9s, then the timer: exactly one
    [fireRay()] and nothing else. *)
Lemma single_9_fires (g : Game) (t0 : Z) :
  filter (λ item, RawSignal.signal item = 9) (signalBuffer g) = [] →
  run N signalTimeoutMs g [Signal 9 t0; Signal9TimerFires]
  = Some (mkGame (state g) (coverVisible g) (signalBuffer g) None
                 (S (fireRayCount g)),
          [FireRay]).
Proof.
  intros Hno9. unfold run, onEvent, processSignal.
  rewrite decide_True by done. cbv zeta.
  assert (Hrecent : ∀ g0, signalBuffer g0 = signalBuffer g →
            filter (λ item, RawSignal.signal item = 9
                            ∧ t0 - RawSignal.timestamp item ≤ signalTimeoutMs)
                   (signalBuffer g0) = []).
  { intros g0 ->. by apply recent9_nil. }
  rewrite Hrecent by (by destruct (signal9Timer g)).
  rewrite decide_False by (simpl; lia).
  cbn [mbind option_bind signal9Timer with_signal9Timer].
  unfold signal9TimerCallback. cbn [signalBuffer with_signal9Timer with_signalBuffer].
  assert (Hbuf : signalBuffer (match signal9Timer g with
                               | Some _ => with_signal9Timer g None
                               | None => g
                               end) = signalBuffer g)
    by (by destruct (signal9Timer g)).
  rewrite Hbuf, !filter_app, Hno9, (filter_is9_nil_not9 _ Hno9).
  rewrite !filter_cons, !filter_nil. cbn [RawSignal.signal].
  rewrite (decide_True (P := 9 = 9)) by done.
  rewrite (decide_False (P := 9 ≠ 9)) by (intros H; by apply H).
  cbn [app length]. rewrite decide_True by done. simpl.
  rewrite app_nil_r. by destruct (signal9Timer g).
Qed.

(** A 9 that finds a 9 of the last window in the buffer: the pending
    timer is dropped, every 9 leaves the buffer, and the one call is
    [resetPlayerObstacles()]; the dropped timer calls nothing later. *)
Lemma double_9_resets (g : Game) (t1 : Z) (earlier : RawSignal.t) :
  wf_grid N (state g) →
  earlier ∈ signalBuffer g →
  RawSignal.signal earlier = 9 →
  t1 - RawSignal.timestamp earlier ≤ signalTimeoutMs →
  ∃ g',
    processSignal N signalTimeoutMs g 9 t1 = Some (g', [ResetObstacles])
    ∧ signal9Timer g' = None
    ∧ signalBuffer g' = filter (λ item, RawSignal.signal item ≠ 9) (signalBuffer g)
    ∧ onEvent N signalTimeoutMs g' Signal9TimerFires = Some (g', []).
Proof.
  intros Hwf Hel H9 Hrecent. unfold processSignal.
  rewrite decide_True by done. cbv zeta.
  set (g0 := match signal9Timer g with
             | Some _ => with_signal9Timer g None
             | None => g
             end).
  assert (Hg0 : state g0 = state g ∧ signalBuffer g0 = signalBuffer g
                ∧ signal9Timer g0 = None).
  { unfold g0. by destruct (signal9Timer g) eqn:Ht. }
  destruct Hg0 as (Hst & Hbuf & Htm).
  rewrite decide_True.
  2: { rewrite Hbuf.
       assert (earlier ∈ filter (λ item, RawSignal.signal item = 9
                                  ∧ t1 - RawSignal.timestamp item ≤ signalTimeoutMs)
                                (signalBuffer g)) as Hin
         by (by apply list_elem_of_filter).
       destruct (filter _ (signalBuffer g)); [by apply elem_of_nil in Hin | simpl; lia]. }
  unfold resetPlayerObstacles. cbn [state with_signalBuffer].
  rewrite Hst, (resetRows_spec N _ Hwf). simpl.
  eexists. split; [reflexivity |]. simpl.
  rewrite Htm, Hbuf. split_and!; try done.
Qed.

(** Two 9s within the window and then the timer: one
    [resetPlayerObstacles()], no [fireRay()]. *)
Lemma double_9_sequence (g : Game) (t0 t1 : Z) :
  wf_grid N (state g) →
  filter (λ item, RawSignal.signal item = 9) (signalBuffer g) = [] →
  t1 - t0 ≤ signalTimeoutMs →
  snd <$> run N signalTimeoutMs g [Signal 9 t0; Signal 9 t1; Signal9TimerFires]
  = Some [ResetObstacles].
Proof.
  intros Hwf Hno9 Hgap.
  change (run N signalTimeoutMs g [Signal 9 t0; Signal 9 t1; Signal9TimerFires])
    with ('(g1, out1) ← processSignal N signalTimeoutMs g 9 t0;
          '(g2, out2) ← run N signalTimeoutMs g1 [Signal 9 t1; Signal9TimerFires];
          Some (g2, out1 ++ out2)).
  assert (∃ g1, processSignal N signalTimeoutMs g 9 t0 = Some (g1, [])
                ∧ state g1 = state g
                ∧ signalBuffer g1 = signalBuffer g ++ [RawSignal.mk 9 t0])
    as (g1 & -> & Hst1 & Hbuf1).
  { unfold processSignal. rewrite decide_True by done. cbv zeta.
    assert (Hbuf : signalBuffer (match signal9Timer g with
                                 | Some _ => with_signal9Timer g None
                                 | None => g
                                 end) = signalBuffer g)
      by (by destruct (signal9Timer g)).
    rewrite Hbuf, (recent9_nil _ _ Hno9).
    rewrite decide_False by (simpl; lia).
    eexists. split; [reflexivity |]. simpl.
    by destruct (signal9Timer g). }
  cbn [mbind option_bind].
  destruct (double_9_resets g1 t1 (RawSignal.mk 9 t0)) as (g2 & Hp & Htm & _ & Hfire).
  - by rewrite Hst1.
  - rewrite Hbuf1. set_solver.
  - done.
  - done.
  - change (run N signalTimeoutMs g1 [Signal 9 t1; Signal9TimerFires])
      with ('(g2, out1) ← processSignal N signalTimeoutMs g1 9 t1;
            '(g3, out2) ← ('(g3, out3) ← onEvent N signalTimeoutMs g2 Signal9TimerFires;
                           Some (g3, out3 ++ []));
            Some (g3, out1 ++ out2)).
    rewrite Hp. cbn [mbind option_bind]. rewrite Hfire. done.
Qed.
End CommandTrack.

(** C4 (the code departs from it): a coordinate signal is to leave every
    buffered 9 in place.  On the reference game the 9 buffered at time 0,
    with its timer still pending, is gone from the buffer once the
    coordinate signal 3 at time 100 has been processed: the pruning filter
    of [processSignal] keeps no entry whose signal is 9. *)
Theorem coordinate_signal_drops_buffered_9 :
  ∃ g1 g2,
    processSignal theN theTimeout newGame 9 0 = Some (g1, [])
    ∧ signalBuffer g1 = [RawSignal.mk 9 0]
    ∧ signal9Timer g1 = Some 3000
    ∧ processSignal theN theTimeout g1 3 100 = Some (g2, [])
    ∧ signalBuffer g2 = [RawSignal.mk 3 100]
    ∧ signal9Timer g2 = Some 3000.
Proof.
  eexists. eexists.
  split; [vm_compute; reflexivity |].
  split; [reflexivity |]. split; [reflexivity |].
  split; [vm_compute; reflexivity |].
  split; reflexivity.
Qed.

(** C2 (the code departs from it): a single 9 followed by the window
    elapsing is to fire the ray exactly once.  On the reference game that
    holds when nothing else arrives, but with the coordinate signal 3
    processed in between the timer callback finds no 9 left in the buffer
    and calls nothing; a second 9 arriving 500 ms after the first, with the
    3 in between, starts a fresh single-9 timer and ends in [fireRay()]
    instead of [resetPlayerObstacles()]. *)
Theorem single_9_lost_to_coordinate_signal :
  snd <$> run theN theTimeout newGame [Signal 9 0; Signal9TimerFires]
    = Some [FireRay]
  ∧ snd <$> run theN theTimeout newGame [Signal 9 0; Signal 3 100; Signal9TimerFires]
    = Some []
  ∧ snd <$> run theN theTimeout newGame [Signal 9 0; Signal 9 500; Signal9TimerFires]
    = Some [ResetObstacles]
  ∧ snd <$> run theN theTimeout newGame
              [Signal 9 0; Signal 3 100; Signal 9 500; Signal9TimerFires]
    = Some [FireRay].
Proof. split_and!; vm_compute; reflexivity. Qed.

(** A 9 stamped more than the window after a buffered 9, but processed
    before that 9's timer came due, leaves both in the buffer; the new
    timer then counts two 9s and calls nothing. *)
Example stale_9_blocks_fire :
  (λ x, (signalBuffer x.1, x.2)) <$>
    run theN theTimeout newGame [Signal 9 0; Signal 9 5000; Signal9TimerFires]
  = Some ([RawSignal.mk 9 0; RawSignal.mk 9 5000], []).
Proof. vm_compute. reflexivity. Qed.

(** * Further properties of the ray tracer *)

(** X1: the trace never returns the loop-detection result: a ray that
    starts outside the grid cannot enter the same (row, col, direction)
    triple twice, so the [visited] memo never holds the triple about to be
    entered. *)
Theorem loop_return_unreachable (N : nat) (level : Level.t) (st : Grid)
    (res : SimulationResult.t) :
  traceRay N level st = Some res →
  SimulationResult.reason res ≠ LoopDetected.
Proof. apply traceRay_never_loops. Qed.

Lemma loop_return_unreachable_witness :
  ∃ res, traceRay theN theLevel crossingState = Some res
         ∧ SimulationResult.reason res ≠ LoopDetected.
Proof.
  eexists. split; [vm_compute; reflexivity |].
  apply (loop_return_unreachable theN theLevel crossingState).
  vm_compute. reflexivity.
Defined.

(** X2: the returned path is a connected walk: each entry lies one step
    from the entry before it, in the direction recorded as its own
    direction on entry. *)
Theorem path_is_connected_walk (N : nat) (level : Level.t) (st : Grid)
    (res : SimulationResult.t) :
  traceRay N level st = Some res →
  ∀ i e e',
    SimulationResult.path res !! i = Some e →
    SimulationResult.path res !! S i = Some e' →
    PathEntry.r e' = PathEntry.r e + (dirToDelta (PathEntry.dirBeforeCell e')).1
    ∧ PathEntry.c e' = PathEntry.c e + (dirToDelta (PathEntry.dirBeforeCell e')).2.
Proof.
  intros Hres.
  destruct (traceRay_ends _ _ _ _ Hres) as (k & _ & _ & Hends & _).
  rewrite (trace_ends_path _ _ _ _ _ _ Hends).
  intros i e e' [Hi ->]%lookup_entries [Hi' ->]%lookup_entries.
  unfold entryAt. cbn [PathEntry.r PathEntry.c PathEntry.dirBeforeCell].
  rewrite (rayAfter_S st (S i)). apply advance_pos.
Qed.

Lemma path_is_connected_walk_witness :
  ∃ res,
    traceRay theN theLevel crossingState = Some res
    ∧ ∀ i e e',
        SimulationResult.path res !! i = Some e →
        SimulationResult.path res !! S i = Some e' →
        PathEntry.r e' = PathEntry.r e + (dirToDelta (PathEntry.dirBeforeCell e')).1
        ∧ PathEntry.c e' = PathEntry.c e + (dirToDelta (PathEntry.dirBeforeCell e')).2.
Proof.
  eexists. split; [vm_compute; reflexivity |].
  apply (path_is_connected_walk theN theLevel crossingState).
  vm_compute. reflexivity.
Defined.

Lemma entry_cell_after_one (N : nat) (level : Level.t) (st : Grid) :
  ((rayAfter st 1 (entryStartOutside N level)).1.1,
   (rayAfter st 1 (entryStartOutside N level)).1.2) = getEntryCell N level.
Proof.
  rewrite (rayAfter_S st 0).
  destruct (advance_pos st (rayAfter st 0 (entryStartOutside N level))) as [-> ->].
  unfold rayAfter, entryStartOutside, getEntryCell.
  destruct (BoundaryRef.side (Level.entry level)); simpl; f_equal; lia.
Qed.

Lemma getEntryCell_inside (N : nat) (level : Level.t) :
  0 ≤ BoundaryRef.index (Level.entry level) < Z.of_nat N →
  isInside N (getEntryCell N level).1 (getEntryCell N level).2 = true.
Proof.
  intros Hidx. unfold getEntryCell, isInside.
  destruct (BoundaryRef.side (Level.entry level)); simpl; lia.
Qed.

(** A ray whose entry index is in range completes at least one pass. *)
Lemma trace_ends_entered (N : nat) (level : Level.t) (st : Grid) (k : nat)
    (res : SimulationResult.t) :
  0 ≤ BoundaryRef.index (Level.entry level) < Z.of_nat N →
  prefix_ok N st (entryStartOutside N level) k →
  trace_ends N level st (entryStartOutside N level) k res →
  (1 ≤ k)%nat.
Proof.
  intros Hidx [Hin _] Hends.
  destruct k as [| k]; [| lia]. exfalso.
  pose proof (getEntryCell_inside N level Hidx) as Hentry.
  rewrite <- (entry_cell_after_one N level st) in Hentry. simpl in Hentry.
  destruct Hends as [e Hins ? ? | ? Hout | i ? Hi ? | Hmax].
  - by apply entryStartOutside_outside in Hins.
  - by apply Hout.
  - lia.
  - done.
Qed.

(** X3: when the entry index lies in [0, N) the first path entry is the
    cell [getEntryCell] names, entered in the inward direction of the entry
    side, with the kind of cell stored there. *)
Theorem path_starts_at_entry_cell (N : nat) (level : Level.t) (st : Grid) :
  wf_grid N st →
  0 ≤ BoundaryRef.index (Level.entry level) < Z.of_nat N →
  ∃ res cellVal,
    traceRay N level st = Some res
    ∧ cellAt st (getEntryCell N level).1 (getEntryCell N level).2 = Some cellVal
    ∧ head (SimulationResult.path res)
      = Some (PathEntry.mk (getEntryCell N level).1 (getEntryCell N level).2
                           (match BoundaryRef.side (Level.entry level) with
                            | Side.left => Dir.E
                            | Side.right => Dir.W
                            | Side.top => Dir.S
                            | Side.bottom => Dir.N
                            end)
                           cellVal).
Proof.
  intros Hwf Hidx. destruct (traceRay_total N level st Hwf) as [res Hres].
  destruct (traceRay_ends _ _ _ _ Hres) as (k & _ & Hok & Hends & _).
  pose proof (trace_ends_entered _ _ _ _ _ Hidx Hok Hends) as Hk.
  destruct k as [| k]; [lia |].
  destruct (prefix_dir _ _ _ _ 0 Hok) as [Hcell _]; [lia |].
  exists res, (PathEntry.cellType (entryAt st (entryStartOutside N level) 0)).
  split; [done |].
  pose proof (entry_cell_after_one N level st) as Hentry.
  rewrite <- Hentry. cbn [fst snd].
  split; [exact Hcell |].
  rewrite (trace_ends_path _ _ _ _ _ _ Hends). simpl.
  f_equal. unfold entryAt at 1. f_equal.
  unfold rayAfter, entryStartOutside.
  by destruct (BoundaryRef.side (Level.entry level)).
Qed.

Lemma path_starts_at_entry_cell_witness :
  ∃ res cellVal,
    traceRay theN theLevel initialState = Some res
    ∧ cellAt initialState (getEntryCell theN theLevel).1 (getEntryCell theN theLevel).2
      = Some cellVal
    ∧ head (SimulationResult.path res)
      = Some (PathEntry.mk (getEntryCell theN theLevel).1 (getEntryCell theN theLevel).2
                           (match BoundaryRef.side (Level.entry theLevel) with
                            | Side.left => Dir.E
                            | Side.right => Dir.W
                            | Side.top => Dir.S
                            | Side.bottom => Dir.N
                            end)
                           cellVal).
Proof.
  apply (path_starts_at_entry_cell theN theLevel initialState).
  - split; [reflexivity | vm_compute; repeat constructor].
  - vm_compute; split; [discriminate | reflexivity].
Defined.

(** X4: a winning trace ends on the cell [getExitCell] names: the last
    path entry of a WIN result is the border cell of the configured exit. *)
Theorem win_ends_at_exit_cell (N : nat) (level : Level.t) (st : Grid)
    (res : SimulationResult.t) :
  traceRay N level st = Some res →
  SimulationResult.outcome res = WIN →
  ∃ e, last (SimulationResult.path res) = Some e
       ∧ (PathEntry.r e, PathEntry.c e) = getExitCell N level.
Proof.
  intros Hres Hwin.
  destruct (traceRay_ends _ _ _ _ Hres) as (k & _ & Hok & Hends & _).
  destruct Hends as [e' Hin Hout Hexit | | |]; simpl in Hwin; try done.
  case_bool_decide as He; [| done]. subst e'.
  destruct k as [| k].
  { by apply entryStartOutside_outside in Hin. }
  exists (entryAt st (entryStartOutside N level) k).
  cbn [SimulationResult.path]. rewrite seq_S, fmap_app.
  change (entryAt st (entryStartOutside N level) <$> [(0 + k)%nat])
    with [entryAt st (entryStartOutside N level) k].
  rewrite last_snoc. split; [done |].
  change (PathEntry.r (entryAt st (entryStartOutside N level) k))
    with (rayAfter st (S k) (entryStartOutside N level)).1.1.
  change (PathEntry.c (entryAt st (entryStartOutside N level) k))
    with (rayAfter st (S k) (entryStartOutside N level)).1.2.
  assert (Hnext : isInside N
            ((rayAfter st (S k) (entryStartOutside N level)).1.1
             + (dirToDelta (rayAfter st (S k) (entryStartOutside N level)).2).1)
            ((rayAfter st (S k) (entryStartOutside N level)).1.2
             + (dirToDelta (rayAfter st (S k) (entryStartOutside N level)).2).2)
          = false).
  { apply not_true_is_false. intros Hin'. apply Hout. unfold insideAfter.
    rewrite (rayAfter_S st (S k)).
    destruct (advance_pos st (rayAfter st (S k) (entryStartOutside N level)))
      as [-> ->]. done. }
  rewrite (computeExit_from_inside N _ _ _ Hin Hnext) in Hexit.
  injection Hexit as Hexit. unfold getExitCell. rewrite <- Hexit.
  unfold insideAfter, isInside in Hin. unfold isInside in Hnext.
  destruct (rayAfter st (S k) (entryStartOutside N level)).2;
    simpl in *; f_equal; lia.
Qed.

Lemma win_ends_at_exit_cell_witness :
  ∃ res e,
    traceRay theN (Level.mk (BoundaryRef.mk Side.left 3) (BoundaryRef.mk Side.top 6))
             initialState = Some res
    ∧ last (SimulationResult.path res) = Some e
    ∧ (PathEntry.r e, PathEntry.c e) = (0, 6).
Proof.
  eexists.
  destruct (win_ends_at_exit_cell theN
              (Level.mk (BoundaryRef.mk Side.left 3) (BoundaryRef.mk Side.top 6))
              initialState
              (default (SimulationResult.mk LOSE None [] NeverEntered)
                 (traceRay theN
                    (Level.mk (BoundaryRef.mk Side.left 3) (BoundaryRef.mk Side.top 6))
                    initialState)))
    as (e & Hlast & Hcell).
  - vm_compute. reflexivity.
  - vm_compute. reflexivity.
  - exists e. split; [vm_compute; reflexivity |]. split; [exact Hlast | exact Hcell].
Defined.

Lemma emptyGrid_no_obstacles (N : nat) (r c : Z) (v : Cell) :
  cellAt (emptyGrid N) r c = Some v → v = Empty.
Proof.
  unfold cellAt, emptyGrid. case_decide; [| done].
  destruct (replicate N (replicate N Empty) !! Z.to_nat r) as [row|] eqn:Hrow; [| done].
  apply lookup_replicate in Hrow as [-> _]. cbn [mbind option_bind].
  by intros [-> _]%lookup_replicate.
Qed.

Section Straight.
Variable N : nat.
Variable st : Grid.
Hypothesis no_obstacles : ∀ r c v, cellAt st r c = Some v → v = Empty.

Lemma advance_clear (r c : Z) (d : Dir.t) :
  advance st (r, c, d) = (r + (dirToDelta d).1, c + (dirToDelta d).2, d).
Proof.
  unfold advance. destruct (dirToDelta d) as [dr dc]. simpl.
  destruct (cellAt st (r + dr) (c + dc)) as [v|] eqn:Hv; [| done].
  by rewrite (no_obstacles _ _ _ Hv).
Qed.

Lemma rayAfter_clear (k : nat) (r c : Z) (d : Dir.t) :
  rayAfter st k (r, c, d)
  = (r + Z.of_nat k * (dirToDelta d).1, c + Z.of_nat k * (dirToDelta d).2, d).
Proof.
  induction k as [| k IH].
  - unfold rayAfter. repeat (f_equal; try lia).
  - rewrite rayAfter_S, IH, advance_clear. repeat (f_equal; try lia).
Qed.

Lemma straight_insideAfter (level : Level.t) (k : nat) :
  0 ≤ BoundaryRef.index (Level.entry level) < Z.of_nat N →
  insideAfter N st (entryStartOutside N level) k ↔ (1 ≤ k ≤ N)%nat.
Proof.
  intros Hidx. unfold insideAfter, entryStartOutside, isInside.
  destruct (BoundaryRef.side (Level.entry level));
    rewrite rayAfter_clear; simpl; lia.
Qed.
End Straight.

(** X5: on a grid of side below 512 without any obstacle, a ray whose
    entry index lies in [0, N) crosses the grid in a straight line: it
    leaves through the opposite side at the same index after exactly N
    cells, and wins exactly when that boundary cell is the configured
    exit. *)
Theorem straight_through (N : nat) (level : Level.t) (st : Grid) :
  wf_grid N st →
  (∀ r c v, cellAt st r c = Some v → v = Empty) →
  (N < 512)%nat →
  0 ≤ BoundaryRef.index (Level.entry level) < Z.of_nat N →
  ∃ res,
    traceRay N level st = Some res
    ∧ SimulationResult.exitInfo res
      = Some (BoundaryRef.mk (oppositeSide (BoundaryRef.side (Level.entry level)))
                             (BoundaryRef.index (Level.entry level)))
    ∧ length (SimulationResult.path res) = N
    ∧ (SimulationResult.outcome res = WIN
       ↔ Level.exit level
         = BoundaryRef.mk (oppositeSide (BoundaryRef.side (Level.entry level)))
                          (BoundaryRef.index (Level.entry level))).
Proof.
  intros Hwf Hclear HN Hidx.
  destruct (traceRay_total N level st Hwf) as [res Hres].
  exists res. split; [done |].
  pose proof (traceRay_never_loops _ _ _ _ Hres) as Hnoloop.
  destruct (traceRay_ends _ _ _ _ Hres) as (k & _ & Hok & Hends & _).
  pose proof (trace_ends_entered _ _ _ _ _ Hidx Hok Hends) as Hk1.
  assert (Hins : ∀ m, insideAfter N st (entryStartOutside N level) m ↔ (1 ≤ m ≤ N)%nat).
  { intros m. by apply straight_insideAfter. }
  assert (HkN : (k ≤ N)%nat).
  { destruct Hok as [Hin _]. destruct (Hin (k - 1)%nat) as [Hi _]; [lia |].
    apply Hins in Hi. lia. }
  destruct Hends as [e Hin Hout Hexit | Hnot ? | ? ? ? ? | Hmax].
  - assert (k = N) as -> by (rewrite Hins in Hout; lia).
    assert (e = BoundaryRef.mk (oppositeSide (BoundaryRef.side (Level.entry level)))
                               (BoundaryRef.index (Level.entry level))) as ->.
    { assert (Hnext : isInside N
                ((rayAfter st N (entryStartOutside N level)).1.1
                 + (dirToDelta (rayAfter st N (entryStartOutside N level)).2).1)
                ((rayAfter st N (entryStartOutside N level)).1.2
                 + (dirToDelta (rayAfter st N (entryStartOutside N level)).2).2)
              = false).
      { apply not_true_is_false. intros Hin'. apply Hout. unfold insideAfter.
        rewrite (rayAfter_S st N).
        destruct (advance_pos st (rayAfter st N (entryStartOutside N level)))
          as [-> ->]. done. }
      rewrite (computeExit_from_inside N _ _ _ Hin Hnext) in Hexit.
      injection Hexit as <-. unfold entryStartOutside.
      destruct (BoundaryRef.side (Level.entry level));
        rewrite (rayAfter_clear st Hclear); simpl; f_equal; lia. }
    simpl. rewrite length_fmap, length_seq.
    split_and!; try done. case_bool_decide; split; congruence.
  - exfalso. apply Hnot. apply Hins. lia.
  - done.
  - unfold maxSteps in Hmax. lia.
Qed.

Lemma straight_through_witness :
  ∃ res,
    traceRay theN theLevel (emptyGrid theN) = Some res
    ∧ SimulationResult.exitInfo res = Some (BoundaryRef.mk Side.right 3)
    ∧ length (SimulationResult.path res) = theN.
Proof.
  destruct (straight_through theN theLevel (emptyGrid theN))
    as (res & Hres & Hexit & Hlen & _).
  - split; [reflexivity | vm_compute; repeat constructor].
  - apply emptyGrid_no_obstacles.
  - vm_compute. lia.
  - vm_compute; split; [discriminate | reflexivity].
  - exists res. split; [exact Hres |]. split; [exact Hexit | exact Hlen].
Defined.

Lemma length_allKeys (N : nat) : length (allKeys N) = (4 * N * N)%nat.
Proof.
  unfold allKeys. rewrite !length_prod, !length_seqZ. simpl. lia.
Qed.

Lemma elem_of_allKeys (N : nat) (r c : Z) (d : Dir.t) :
  isInside N r c = true → (r, c, d) ∈ allKeys N.
Proof.
  intros [Hr Hc]%isInside_bounds. unfold allKeys.
  apply list_elem_of_In, in_prod; [apply in_prod |].
  - apply list_elem_of_In, elem_of_seqZ. lia.
  - apply list_elem_of_In, elem_of_seqZ. lia.
  - destruct d; simpl; tauto.
Qed.

(** The passes completed inside the grid enter pairwise different
    triples of an N x N grid, so there are at most 4 N N of them. *)
Lemma prefix_ok_bound (N : nat) (st : Grid) (p : Z * Z * Dir.t) (k : nat) :
  prefix_ok N st p k → (k ≤ 4 * N * N)%nat.
Proof.
  intros [Hin Hdist].
  enough (length (enteredAt st p <$> seq 0 k) ≤ length (allKeys N))%nat as Hlen.
  { by rewrite length_fmap, length_seq, length_allKeys in Hlen. }
  apply submseteq_length, NoDup_submseteq.
  - apply NoDup_fmap_2_strong; [| apply NoDup_seq].
    intros i j [_ Hi]%elem_of_seq [_ Hj]%elem_of_seq Heq.
    destruct (Nat.lt_trichotomy i j) as [Hlt | [-> | Hlt]]; [| done |].
    + exfalso. apply (Hdist i j); [lia | done].
    + exfalso. apply (Hdist j i); [lia | done].
  - intros key (i & -> & [_ Hi]%elem_of_seq)%list_elem_of_fmap.
    destruct (Hin i) as [Hins _]; [lia |].
    unfold enteredAt. by apply elem_of_allKeys.
Qed.

(** X6: the returned path never has more than 4 N N entries, one for each
    (row, col, direction) triple of the grid, whatever the step ceiling. *)
Theorem path_length_bound (N : nat) (level : Level.t) (st : Grid)
    (res : SimulationResult.t) :
  traceRay N level st = Some res →
  (length (SimulationResult.path res) ≤ 4 * N * N)%nat.
Proof.
  intros Hres.
  destruct (traceRay_ends _ _ _ _ Hres) as (k & _ & Hok & Hends & _).
  rewrite (trace_ends_path _ _ _ _ _ _ Hends), length_fmap, length_seq.
  by eapply prefix_ok_bound.
Qed.

Lemma path_length_bound_witness :
  ∃ res,
    traceRay theN theLevel crossingState = Some res
    ∧ (length (SimulationResult.path res) ≤ 4 * theN * theN)%nat.
Proof.
  eexists. split; [vm_compute; reflexivity |].
  apply (path_length_bound theN theLevel crossingState).
  vm_compute. reflexivity.
Defined.

(** X7: on an N x N grid with 4 N N below the step ceiling (N up to 11,
    the reference 8 included) every ray whose entry index lies in [0, N)
    leaves the grid: the trace returns an exit, never the step-limit, the
    loop or the never-entered result. *)
Theorem ray_always_exits (N : nat) (level : Level.t) (st : Grid) :
  wf_grid N st →
  (4 * N * N < 512)%nat →
  0 ≤ BoundaryRef.index (Level.entry level) < Z.of_nat N →
  ∃ res exitInfo,
    traceRay N level st = Some res
    ∧ SimulationResult.exitInfo res = Some exitInfo
    ∧ SimulationResult.reason res
      = (if bool_decide (exitInfo = Level.exit level)
         then ExitedThroughExit else ExitedElsewhere exitInfo)
    ∧ SimulationResult.outcome res
      = (if bool_decide (exitInfo = Level.exit level) then WIN else LOSE).
Proof.
  intros Hwf HN Hidx.
  destruct (traceRay_total N level st Hwf) as [res Hres].
  exists res.
  pose proof (traceRay_never_loops _ _ _ _ Hres) as Hnoloop.
  destruct (traceRay_ends _ _ _ _ Hres) as (k & _ & Hok & Hends & _).
  pose proof (trace_ends_entered _ _ _ _ _ Hidx Hok Hends) as Hk1.
  pose proof (prefix_ok_bound _ _ _ _ Hok) as Hk.
  destruct Hends as [e Hin Hout Hexit | Hnot ? | ? ? ? ? | Hmax].
  - exists e. done.
  - exfalso. apply Hnot. destruct Hok as [Hin _].
    destruct (Hin (k - 1)%nat) as [Hi _]; [lia |].
    by replace (S (k - 1)) with k in Hi by lia.
  - done.
  - unfold maxSteps in Hmax. lia.
Qed.

Lemma ray_always_exits_witness :
  ∃ res exitInfo,
    traceRay theN theLevel initialState = Some res
    ∧ SimulationResult.exitInfo res = Some exitInfo
    ∧ SimulationResult.reason res
      = (if bool_decide (exitInfo = Level.exit theLevel)
         then ExitedThroughExit else ExitedElsewhere exitInfo)
    ∧ SimulationResult.outcome res
      = (if bool_decide (exitInfo = Level.exit theLevel) then WIN else LOSE).
Proof.
  apply (ray_always_exits theN theLevel initialState).
  - split; [reflexivity | vm_compute; repeat constructor].
  - vm_compute. lia.
  - vm_compute; split; [discriminate | reflexivity].
Defined.

(** * Further properties of the grid operations *)

Lemma filter_none {A} (P : A → Prop) `{!∀ x, Decision (P x)} (l : list A) :
  (∀ x, x ∈ l → ¬ P x) → filter P l = [].
Proof.
  induction l as [| x l IH]; intros Hnone; [done |].
  rewrite filter_cons_False by (apply Hnone; set_solver).
  apply IH. intros y Hy. apply Hnone. set_solver.
Qed.

(** A row of one N x N matrix is the row of another once the cells agree. *)
Lemma row_from_cells (N : nat) (a b : Grid) (i : nat) :
  wf_grid N a → wf_grid N b →
  (∀ j : nat, cellAt a (Z.of_nat i) (Z.of_nat j) = cellAt b (Z.of_nat i) (Z.of_nat j)) →
  a !! i = b !! i.
Proof.
  intros [Hla Hra] [Hlb Hrb] Heq.
  destruct (a !! i) as [ra|] eqn:Ha, (b !! i) as [rb|] eqn:Hb.
  - f_equal. apply list_eq. intros j.
    specialize (Heq j). by rewrite !cellAt_nat, Ha, Hb in Heq.
  - apply lookup_lt_Some in Ha. apply lookup_ge_None in Hb. lia.
  - apply lookup_lt_Some in Hb. apply lookup_ge_None in Ha. lia.
  - done.
Qed.

Lemma clearFixedRow_spec (N : nat) (x0 : Grid) (n0 r : nat) (row : list Cell) :
  wf_grid N x0 → (r < N)%nat → x0 !! r = Some row →
  ∃ x,
    clearFixedRow N (x0, n0) r
    = Some (x, (n0 + length (filter (λ v, v = FixedObstacle) row))%nat)
    ∧ wf_grid N x
    ∧ ∀ i j : nat,
        cellAt x (Z.of_nat i) (Z.of_nat j) =
          if decide (i = r) then clearCell <$> cellAt x0 (Z.of_nat i) (Z.of_nat j)
          else cellAt x0 (Z.of_nat i) (Z.of_nat j).
Proof.
  intros Hwf Hr Hrow.
  assert (Hlen : length row = N) by (destruct Hwf as [_ H]; by eapply Forall_lookup_1 in H).
  destruct (foldl_seq_option_inv (λ x c, clearFixedAt x r c)
    (λ k acc, wf_grid N acc.1
       ∧ (∀ i j : nat,
            cellAt acc.1 (Z.of_nat i) (Z.of_nat j) =
              if decide (i = r ∧ (j < k)%nat)
              then clearCell <$> cellAt x0 (Z.of_nat i) (Z.of_nat j)
              else cellAt x0 (Z.of_nat i) (Z.of_nat j))
       ∧ acc.2 = (n0 + length (filter (λ v, v = FixedObstacle) (take k row)))%nat)
    N (x0, n0)) as ([y n] & Hy & Hwfy & Hcells & Hn).
  - simpl. split; [done |]. split; [| lia].
    intros i j. rewrite decide_False by lia. done.
  - intros k [x n] Hk (Hwfx & Hx & Hcount). simpl in *.
    destruct (row !! k) as [v|] eqn:Hv; [| apply lookup_ge_None in Hv; lia].
    assert (Hv0 : cellAt x0 (Z.of_nat r) (Z.of_nat k) = Some v)
      by (by rewrite cellAt_nat, Hrow).
    assert (Hvx : cellAt x (Z.of_nat r) (Z.of_nat k) = Some v).
    { rewrite Hx. rewrite decide_False by lia. done. }
    unfold clearFixedAt. simpl. rewrite Hvx. simpl.
    eexists. split; [reflexivity |].
    rewrite (take_S_r _ _ _ Hv), filter_app, length_app, filter_cons, filter_nil.
    case_bool_decide as Hfix; simpl.
    + split; [by apply setCell_wf |]. split.
      * intros i j. destruct (decide (i = r ∧ j = k)) as [[-> ->] | Hne].
        -- rewrite decide_True by lia. rewrite Hv0. subst v. simpl.
           by erewrite cellAt_setCell_eq.
        -- rewrite cellAt_setCell_ne; [| lia | lia | intros [=]; apply Hne; lia].
           rewrite Hx. repeat case_decide; try done; lia.
      * rewrite decide_True by done. simpl. lia.
    + split; [done |]. split.
      * intros i j. destruct (decide (i = r ∧ j = k)) as [[-> ->] | Hne].
        -- rewrite decide_True by lia. rewrite Hv0, Hvx. by destruct v.
        -- rewrite Hx. repeat case_decide; try done; lia.
      * rewrite decide_False by done. simpl. lia.
  - simpl in *. exists y. rewrite take_ge in Hn by lia. subst n.
    split; [done |]. split; [done |].
    intros i j. rewrite Hcells.
    destruct (decide (i = r)) as [-> | Hne].
    + destruct (decide (j < N)%nat).
      * rewrite decide_True by lia. done.
      * rewrite decide_False by lia.
        destruct (cellAt x0 (Z.of_nat r) (Z.of_nat j)) as [v|] eqn:Hv; [| done].
        apply (cellAt_wf_Some_lt N) in Hv; [lia | done].
    + rewrite decide_False by (intros [? ?]; done). done.
Qed.

Lemma clearFixedRows_spec (N : nat) (st : Grid) :
  wf_grid N st →
  clearFixedRows N (st, 0%nat)
  = Some (map (map clearCell) st, cellsOfKind FixedObstacle st).
Proof.
  intros Hwf.
  destruct (foldl_seq_option_inv (λ x r, clearFixedRow N x r)
    (λ k acc, wf_grid N acc.1
       ∧ (∀ i j : nat,
            cellAt acc.1 (Z.of_nat i) (Z.of_nat j) =
              if decide (i < k)%nat
              then clearCell <$> cellAt st (Z.of_nat i) (Z.of_nat j)
              else cellAt st (Z.of_nat i) (Z.of_nat j))
       ∧ acc.2 = length (filter (λ v, v = FixedObstacle) (concat (take k st))))
    N (st, 0%nat)) as ([y n] & Hy & Hwfy & Hcells & Hn).
  - cbn [fst snd]. split; [done |]. split; [| done].
    intros i j. rewrite decide_False by lia. done.
  - intros k [x n] Hk (Hwfx & Hx & Hcount). cbn [fst snd] in *.
    destruct (st !! k) as [row|] eqn:Hrow;
      [| apply lookup_ge_None in Hrow; destruct Hwf; lia].
    assert (Hrowx : x !! k = Some row).
    { rewrite <- Hrow. apply (row_from_cells N); [done | done |].
      intros j. rewrite Hx. rewrite decide_False by lia. done. }
    destruct (clearFixedRow_spec N x n k row Hwfx Hk Hrowx) as (y & Hy & Hwfy & Hcells).
    exists (y, (n + length (filter (λ v, v = FixedObstacle) row))%nat).
    split; [done |]. simpl. split; [done |]. split.
    + intros i j. rewrite Hcells, !Hx. repeat case_decide; try done; lia.
    + rewrite (take_S_r _ _ _ Hrow), concat_app, filter_app, length_app, Hcount.
      simpl. by rewrite app_nil_r.
  - simpl in *. unfold clearFixedRows. rewrite Hy. do 2 f_equal.
    + apply (grid_ext N); [done | by apply fmap_wf |].
      intros i j. rewrite Hcells, cellAt_fmap.
      case_decide; [done |].
      destruct (cellAt st (Z.of_nat i) (Z.of_nat j)) as [v|] eqn:Hv; [| done].
      apply (cellAt_wf_Some_lt N) in Hv; [lia | done].
    + rewrite take_ge in Hn by (destruct Hwf; lia). done.
Qed.

Lemma cellsOfKind_fmap_none (kind : Cell) (f : Cell → Cell) (st : Grid) :
  (∀ v, f v ≠ kind) → cellsOfKind kind (map (map f) st) = 0%nat.
Proof.
  intros Hf. unfold cellsOfKind. rewrite <- concat_map, filter_none; [done |].
  intros x [y [<- _]]%list_elem_of_In%in_map_iff. apply Hf.
Qed.

(** X8: in play mode [clearFixedObstacles] refuses and changes nothing; in
    edit mode it turns every FixedObstacle cell into Empty, keeps every
    other cell, reports the number of fixed cells it found, and a second
    call finds none. *)
Theorem clearFixedObstacles_spec (N : nat) (g : Game) :
  wf_grid N (state g) →
  (coverVisible g = true → clearFixedObstacles N g = Some (g, CannotClear))
  ∧ (coverVisible g = false →
     ∃ g',
       clearFixedObstacles N g = Some (g', Cleared (cellsOfKind FixedObstacle (state g)))
       ∧ g' = with_state g (map (map clearCell) (state g))
       ∧ (∀ r c v, cellAt (state g) r c = Some v →
            cellAt (state g') r c
            = Some (if bool_decide (v = FixedObstacle) then Empty else v))
       ∧ clearFixedObstacles N g' = Some (g', Cleared 0)).
Proof.
  intros Hwf. unfold clearFixedObstacles. split; intros Hcover; rewrite Hcover; [done |].
  rewrite (clearFixedRows_spec N _ Hwf). simpl.
  eexists. split; [reflexivity |]. split; [done |]. split.
  - intros r c v Hv. simpl. rewrite cellAt_fmap, Hv. by destruct v.
  - simpl. rewrite Hcover.
    rewrite (clearFixedRows_spec N) by (by apply fmap_wf). simpl.
    rewrite cellsOfKind_fmap_none by (by intros []).
    unfold with_state. simpl. do 3 f_equal.
    rewrite map_map. apply map_ext. intros row.
    rewrite map_map. apply map_ext. by intros [].
Qed.

Lemma clearFixedObstacles_spec_witness :
  clearFixedObstacles theN newGame
  = Some (with_state newGame (map (map clearCell) (state newGame)),
          Cleared (cellsOfKind FixedObstacle (state newGame)))
  ∧ clearFixedObstacles theN playGame = Some (playGame, CannotClear).
Proof.
  split.
  - destruct (clearFixedObstacles_spec theN newGame) as [_ H].
    + split; [reflexivity | vm_compute; repeat constructor].
    + destruct H as (g' & -> & -> & _); reflexivity.
  - apply (clearFixedObstacles_spec theN playGame); [| reflexivity].
    split; [reflexivity | vm_compute; repeat constructor].
Defined.

(** The edit-mode clear on the reference level removes its eight fixed
    obstacles and leaves the empty grid. *)
Example clearFixedObstacles_newGame :
  (λ x, (state x.1, x.2)) <$> clearFixedObstacles theN newGame
  = Some (emptyGrid theN, Cleared 8).
Proof. vm_compute. reflexivity. Qed.

Lemma countPlayerRow_spec (N : nat) (st : Grid) (n0 r : nat) (row : list Cell) :
  st !! r = Some row → length row = N →
  countPlayerRow N st n0 r
  = Some (n0 + length (filter (λ v, v = PlayerObstacle) row))%nat.
Proof.
  intros Hrow Hlen.
  destruct (foldl_seq_option_inv (λ x c, countPlayerAt st x r c)
    (λ k n, n = (n0 + length (filter (λ v, v = PlayerObstacle) (take k row)))%nat)
    N n0) as (n & Hn & ->).
  - simpl. lia.
  - intros k n Hk ->.
    destruct (row !! k) as [v|] eqn:Hv; [| apply lookup_ge_None in Hv; lia].
    unfold countPlayerAt. rewrite cellAt_nat, Hrow. simpl. rewrite Hv. simpl.
    eexists. split; [reflexivity |].
    rewrite (take_S_r _ _ _ Hv), filter_app, length_app, filter_cons, filter_nil.
    case_bool_decide.
    + rewrite decide_True by done. simpl. lia.
    + rewrite decide_False by done. simpl. lia.
  - unfold countPlayerRow. rewrite Hn, take_ge by lia. done.
Qed.

Lemma countPlayerObstacles_cells (N : nat) (g : Game) :
  wf_grid N (state g) →
  countPlayerObstacles N g = Some (cellsOfKind PlayerObstacle (state g)).
Proof.
  intros [Hlen Hrows].
  destruct (foldl_seq_option_inv (λ x r, countPlayerRow N (state g) x r)
    (λ k n, n = length (filter (λ v, v = PlayerObstacle) (concat (take k (state g)))))
    N 0%nat) as (n & Hn & ->).
  - done.
  - intros k n Hk ->.
    destruct (state g !! k) as [row|] eqn:Hrow; [| apply lookup_ge_None in Hrow; lia].
    rewrite (countPlayerRow_spec N _ _ _ row Hrow)
      by (by eapply Forall_lookup_1 in Hrows).
    eexists. split; [reflexivity |].
    rewrite (take_S_r _ _ _ Hrow), concat_app, filter_app, length_app.
    simpl. by rewrite app_nil_r.
  - unfold countPlayerObstacles. rewrite Hn, take_ge by lia. done.
Qed.

Lemma count_middle (kind : Cell) (l1 l2 : Grid) (a b : list Cell) (v w : Cell) :
  (cellsOfKind kind (l1 ++ (a ++ w :: b) :: l2) + (if decide (v = kind) then 1 else 0)
   = cellsOfKind kind (l1 ++ (a ++ v :: b) :: l2) + (if decide (w = kind) then 1 else 0))%nat.
Proof.
  unfold cellsOfKind.
  rewrite !concat_app, !concat_cons, !filter_app, !length_app, !filter_cons.
  repeat case_decide; simpl; lia.
Qed.

(** The cells of one kind after a single cell is overwritten. *)
Lemma cellsOfKind_setCell (kind : Cell) (st : Grid) (r c : Z) (v w : Cell) :
  cellAt st r c = Some v →
  (cellsOfKind kind (setCell st r c w) + (if decide (v = kind) then 1 else 0)
   = cellsOfKind kind st + (if decide (w = kind) then 1 else 0))%nat.
Proof.
  intros Hv. pose proof (cellAt_Some_nonneg _ _ _ _ Hv) as Hnn.
  unfold cellAt in Hv. rewrite decide_True in Hv by done.
  destruct (st !! Z.to_nat r) as [row|] eqn:Hrow; [| done]. simpl in Hv.
  assert (E2 : st = take (Z.to_nat r) st
                    ++ (take (Z.to_nat c) row ++ v :: drop (S (Z.to_nat c)) row)
                    :: drop (S (Z.to_nat r)) st).
  { by rewrite (take_drop_middle row _ _ Hv), (take_drop_middle st _ _ Hrow). }
  assert (E1 : setCell st r c w
               = take (Z.to_nat r) st
                 ++ (take (Z.to_nat c) row ++ w :: drop (S (Z.to_nat c)) row)
                 :: drop (S (Z.to_nat r)) st).
  { unfold setCell. rewrite <- (take_drop_middle st _ _ Hrow) at 1.
    rewrite alter_app_r_alt by (rewrite length_take; lia).
    replace (Z.to_nat r - length (take (Z.to_nat r) st))%nat with 0%nat
      by (rewrite length_take; apply lookup_lt_Some in Hrow; lia).
    cbn [alter list_alter].
    by rewrite insert_take_drop by (by eapply lookup_lt_Some). }
  rewrite E1. rewrite E2 at 3. apply count_middle.
Qed.

(** X9: [countPlayerObstacles] returns the number of PlayerObstacle cells
    of the matrix; a play-mode toggle of an Empty cell raises it by one, of
    a PlayerObstacle cell lowers it by one, and of a FixedObstacle cell
    leaves it. *)
Theorem countPlayerObstacles_toggle (N : nat) (g : Game) (r c : Z) :
  wf_grid N (state g) →
  coverVisible g = true →
  0 ≤ r < Z.of_nat N → 0 ≤ c < Z.of_nat N →
  ∃ v g' n,
    cellAt (state g) r c = Some v
    ∧ toggleCell g r c = Some g'
    ∧ countPlayerObstacles N g = Some n
    ∧ n = cellsOfKind PlayerObstacle (state g)
    ∧ countPlayerObstacles N g'
      = Some (match v with
              | Empty => S n
              | PlayerObstacle => (n - 1)%nat
              | FixedObstacle => n
              end)
    ∧ (v = PlayerObstacle → (1 ≤ n)%nat).
Proof.
  intros Hwf Hcover Hr Hc.
  destruct (cellAt_wf_is_Some N _ r c Hwf Hr Hc) as [v Hv].
  exists v. unfold toggleCell. rewrite Hv, Hcover. simpl.
  pose proof (cellsOfKind_setCell PlayerObstacle (state g) r c v) as Hset.
  destruct v; simpl; eexists; eexists;
    (split; [reflexivity |]); (split; [reflexivity |]);
    (split; [by apply countPlayerObstacles_cells |]); (split; [reflexivity |]).
  - specialize (Hset PlayerObstacle Hv).
    rewrite decide_False, decide_True in Hset by done.
    rewrite countPlayerObstacles_cells by (by apply setCell_wf).
    simpl. split; [f_equal; lia | done].
  - specialize (Hset Empty Hv).
    rewrite decide_True, decide_False in Hset by done.
    rewrite countPlayerObstacles_cells by (by apply setCell_wf).
    simpl. split; [f_equal; lia | lia].
  - rewrite countPlayerObstacles_cells by done. done.
Qed.

Lemma countPlayerObstacles_toggle_witness :
  ∃ g',
    toggleCell playGame 3 3 = Some g'
    ∧ countPlayerObstacles theN playGame = Some 2%nat
    ∧ countPlayerObstacles theN g' = Some 1%nat.
Proof.
  destruct (countPlayerObstacles_toggle theN playGame 3 3)
    as (v & g' & n & Hv & Hg' & Hn & _ & Hn' & _).
  - split; [reflexivity | vm_compute; repeat constructor].
  - reflexivity.
  - vm_compute; split; [discriminate | reflexivity].
  - vm_compute; split; [discriminate | reflexivity].
  - exists g'. split; [exact Hg' |].
    assert (v = PlayerObstacle) as -> by (vm_compute in Hv; congruence).
    assert (n = 2%nat) as -> by (vm_compute in Hn; congruence).
    split; [reflexivity | exact Hn'].
Defined.

(** X10: after [resetPlayerObstacles] the player-obstacle count is zero. *)
Theorem countPlayerObstacles_after_reset (N : nat) (g : Game) :
  wf_grid N (state g) →
  ∃ g', resetPlayerObstacles N g = Some g'
        ∧ countPlayerObstacles N g' = Some 0%nat.
Proof.
  intros Hwf. unfold resetPlayerObstacles.
  rewrite (resetRows_spec N _ Hwf). simpl. eexists. split; [reflexivity |].
  rewrite countPlayerObstacles_cells by (by apply fmap_wf). simpl.
  by rewrite cellsOfKind_fmap_none by (by intros []).
Qed.

Lemma countPlayerObstacles_after_reset_witness :
  ∃ g', resetPlayerObstacles theN playGame = Some g'
        ∧ countPlayerObstacles theN g' = Some 0%nat.
Proof.
  apply (countPlayerObstacles_after_reset theN playGame).
  split; [reflexivity | vm_compute; repeat constructor].
Defined.

Lemma setCell_setCell (st : Grid) (r c : Z) (a b : Cell) :
  setCell (setCell st r c a) r c b = setCell st r c b.
Proof.
  unfold setCell. rewrite list_alter_alter_eq.
  apply list_alter_ext; [| done]. intros row _. simpl.
  apply list_insert_insert_eq.
Qed.

Lemma with_state_same (g : Game) : with_state g (state g) = g.
Proof. by destruct g. Qed.

Lemma toggleCell_value (g : Game) (r c : Z) (v : Cell) :
  cellAt (state g) r c = Some v →
  toggleCell g r c =
    Some (match coverVisible g, v with
          | true, FixedObstacle => g
          | true, PlayerObstacle => with_state g (setCell (state g) r c Empty)
          | true, Empty => with_state g (setCell (state g) r c PlayerObstacle)
          | false, FixedObstacle => with_state g (setCell (state g) r c Empty)
          | false, PlayerObstacle => with_state g (setCell (state g) r c Empty)
          | false, Empty => with_state g (setCell (state g) r c FixedObstacle)
          end).
Proof.
  intros Hv. unfold toggleCell. rewrite Hv. simpl.
  by destruct (coverVisible g), v.
Qed.

(** X11: toggling the same cell twice in play mode gives back the game as
    it was, whatever the cell holds.  In edit mode that holds for an Empty
    or FixedObstacle cell, while a PlayerObstacle cell ends up a
    FixedObstacle. *)
Theorem toggleCell_twice (N : nat) (g : Game) (r c : Z) :
  wf_grid N (state g) → 0 ≤ r < Z.of_nat N → 0 ≤ c < Z.of_nat N →
  ∃ v g1 g2,
    cellAt (state g) r c = Some v
    ∧ toggleCell g r c = Some g1
    ∧ toggleCell g1 r c = Some g2
    ∧ (coverVisible g = true → g2 = g)
    ∧ (coverVisible g = false → v ≠ PlayerObstacle → g2 = g)
    ∧ (coverVisible g = false → v = PlayerObstacle →
       g2 = with_state g (setCell (state g) r c FixedObstacle)).
Proof.
  intros Hwf Hr Hc.
  destruct (cellAt_wf_is_Some N _ r c Hwf Hr Hc) as [v Hv].
  assert (Hback : ∀ w, with_state (with_state g (setCell (state g) r c w))
                         (setCell (setCell (state g) r c w) r c v) = g).
  { intros w. rewrite setCell_setCell, (setCell_same _ _ _ _ Hv). by destruct g. }
  assert (Hsecond : ∀ w, cellAt (state (with_state g (setCell (state g) r c w))) r c
                         = Some w).
  { intros w. simpl. by eapply cellAt_setCell_eq. }
  exists v. rewrite (toggleCell_value g r c v Hv).
  destruct (coverVisible g) eqn:Hcover, v;
    eexists; eexists; (split; [exact Hv |]); (split; [reflexivity |]).
  - rewrite (toggleCell_value _ r c _ (Hsecond PlayerObstacle)). simpl. rewrite Hcover.
    split; [reflexivity |]. split_and!; try done; intros; apply Hback.
  - rewrite (toggleCell_value _ r c _ (Hsecond Empty)). simpl. rewrite Hcover.
    split; [reflexivity |]. split_and!; try done; intros; apply Hback.
  - rewrite (toggleCell_value g r c _ Hv), Hcover.
    split; [reflexivity |]. split_and!; done.
  - rewrite (toggleCell_value _ r c _ (Hsecond FixedObstacle)). simpl. rewrite Hcover.
    split; [reflexivity |]. split_and!; try done; intros; apply Hback.
  - rewrite (toggleCell_value _ r c _ (Hsecond Empty)). simpl. rewrite Hcover.
    split; [reflexivity |]. split_and!; try done; intros;
      unfold with_state; simpl; by rewrite setCell_setCell.
  - rewrite (toggleCell_value _ r c _ (Hsecond Empty)). simpl. rewrite Hcover.
    split; [reflexivity |]. split_and!; try done; intros; apply Hback.
Qed.

Lemma toggleCell_twice_witness :
  ∃ g1, toggleCell playGame 5 5 = Some g1 ∧ toggleCell g1 5 5 = Some playGame.
Proof.
  destruct (toggleCell_twice theN playGame 5 5) as (v & g1 & g2 & _ & H1 & H2 & Hplay & _).
  - split; [reflexivity | vm_compute; repeat constructor].
  - vm_compute; split; [discriminate | reflexivity].
  - vm_compute; split; [discriminate | reflexivity].
  - exists g1. split; [exact H1 |]. rewrite H2. f_equal. apply Hplay. reflexivity.
Defined.

Lemma cellAt_emptyGrid (N : nat) (r c : Z) :
  0 ≤ r < Z.of_nat N → 0 ≤ c < Z.of_nat N →
  cellAt (emptyGrid N) r c = Some Empty.
Proof.
  intros Hr Hc. destruct (cellAt_wf_is_Some N (emptyGrid N) r c) as [v Hv];
    [apply emptyGrid_wf | done | done |].
  by rewrite Hv, (emptyGrid_no_obstacles _ _ _ _ Hv).
Qed.

(** X12: in edit mode, [clearFixedObstacles] followed by
    [resetPlayerObstacles] leaves the all-empty grid, and the same two
    calls in the other order reach the same grid. *)
Theorem clear_then_reset_empties (N : nat) (g : Game) :
  wf_grid N (state g) →
  coverVisible g = false →
  ∃ g1 n g2 g3 g4 m,
    clearFixedObstacles N g = Some (g1, Cleared n)
    ∧ resetPlayerObstacles N g1 = Some g2
    ∧ state g2 = emptyGrid N
    ∧ resetPlayerObstacles N g = Some g3
    ∧ clearFixedObstacles N g3 = Some (g4, Cleared m)
    ∧ g4 = g2 ∧ m = n.
Proof.
  intros Hwf Hcover.
  assert (Hempty : ∀ f h : Cell → Cell, (∀ v, h (f v) = Empty) →
            map (map h) (map (map f) (state g)) = emptyGrid N).
  { intros f h Hfh. apply (grid_ext N);
      [by apply fmap_wf, fmap_wf | apply emptyGrid_wf |].
    intros i j. rewrite !cellAt_fmap.
    destruct (cellAt (state g) (Z.of_nat i) (Z.of_nat j)) as [v|] eqn:Hv; simpl.
    - apply (cellAt_wf_Some_lt N) in Hv as [? ?]; [| done].
      by rewrite Hfh, cellAt_emptyGrid.
    - destruct (cellAt (emptyGrid N) (Z.of_nat i) (Z.of_nat j)) as [v|] eqn:He; [| done].
      apply (cellAt_wf_Some_lt N) in He as [? ?]; [| apply emptyGrid_wf].
      destruct (cellAt_wf_is_Some N (state g) (Z.of_nat i) (Z.of_nat j)) as [? ?];
        [done | done | done | congruence]. }
  assert (H1 : clearFixedObstacles N g
               = Some (with_state g (map (map clearCell) (state g)),
                       Cleared (cellsOfKind FixedObstacle (state g)))).
  { unfold clearFixedObstacles. by rewrite Hcover, (clearFixedRows_spec N _ Hwf). }
  assert (H2 : resetPlayerObstacles N (with_state g (map (map clearCell) (state g)))
               = Some (with_state g (emptyGrid N))).
  { unfold resetPlayerObstacles. simpl.
    rewrite (resetRows_spec N) by (by apply fmap_wf). simpl.
    unfold with_state. simpl. by rewrite Hempty by (by intros []). }
  assert (H3 : resetPlayerObstacles N g
               = Some (with_state g (map (map resetCell) (state g)))).
  { unfold resetPlayerObstacles. by rewrite (resetRows_spec N _ Hwf). }
  assert (H5 : cellsOfKind FixedObstacle (map (map resetCell) (state g))
               = cellsOfKind FixedObstacle (state g)).
  { unfold cellsOfKind. rewrite <- concat_map.
    generalize (concat (state g)). intros l.
    induction l as [| v l IH]; [done |].
    rewrite map_cons, !filter_cons.
    destruct v; simpl; repeat case_decide; try done; simpl; by rewrite IH. }
  assert (H4 : clearFixedObstacles N (with_state g (map (map resetCell) (state g)))
               = Some (with_state g (emptyGrid N),
                       Cleared (cellsOfKind FixedObstacle (state g)))).
  { unfold clearFixedObstacles. simpl. rewrite Hcover.
    rewrite (clearFixedRows_spec N) by (by apply fmap_wf). simpl.
    unfold with_state. simpl. by rewrite Hempty, H5 by (by intros []). }
  exists (with_state g (map (map clearCell) (state g))),
         (cellsOfKind FixedObstacle (state g)),
         (with_state g (emptyGrid N)),
         (with_state g (map (map resetCell) (state g))),
         (with_state g (emptyGrid N)),
         (cellsOfKind FixedObstacle (state g)).
  split_and!; done.
Qed.

Lemma clear_then_reset_empties_witness :
  ∃ g1 n g2,
    clearFixedObstacles theN newGame = Some (g1, Cleared n)
    ∧ resetPlayerObstacles theN g1 = Some g2
    ∧ state g2 = emptyGrid theN.
Proof.
  destruct (clear_then_reset_empties theN newGame)
    as (g1 & n & g2 & _ & _ & _ & H1 & H2 & H3 & _).
  - split; [reflexivity | vm_compute; repeat constructor].
  - reflexivity.
  - exists g1, n, g2. split; [exact H1 |]. split; [exact H2 | exact H3].
Defined.

(** * Further properties of the signal decoder *)

Lemma drop_last_two {A} (l : list A) :
  (2 ≤ length l)%nat → ∃ a b, drop (length l - 2) l = [a; b].
Proof.
  intros Hlen.
  pose proof (length_drop l (length l - 2)) as Hd.
  destruct (drop (length l - 2) l) as [| a [| b [| c rest]]]; simpl in Hd; try lia.
  by exists a, b.
Qed.

Lemma toggleCell_wf (N : nat) (g g' : Game) (r c : Z) :
  wf_grid N (state g) → toggleCell g r c = Some g' →
  wf_grid N (state g') ∧ coverVisible g' = coverVisible g.
Proof.
  intros Hwf. unfold toggleCell.
  destruct (cellAt (state g) r c) as [v|]; [| done]. simpl.
  destruct (coverVisible g) eqn:Hcover, v; simpl; intros [= <-]; simpl;
    (split; [by try apply setCell_wf | done]).
Qed.

(** A play-mode toggle neither makes nor removes a FixedObstacle cell. *)
Lemma toggleCell_play_fixed (g g' : Game) (r c r' c' : Z) :
  coverVisible g = true → toggleCell g r c = Some g' →
  cellAt (state g') r' c' = Some FixedObstacle
  ↔ cellAt (state g) r' c' = Some FixedObstacle.
Proof.
  intros Hcover. unfold toggleCell.
  destruct (cellAt (state g) r c) as [v|] eqn:Hv; [| done]. simpl.
  pose proof (cellAt_Some_nonneg _ _ _ _ Hv) as [Hr Hc].
  rewrite Hcover. destruct v; simpl; intros [= <-]; simpl; try done.
  - destruct (decide ((r', c') = (r, c))) as [[= -> ->] | Hne].
    + erewrite cellAt_setCell_eq by done. rewrite Hv. split; congruence.
    + by rewrite cellAt_setCell_ne.
  - destruct (decide ((r', c') = (r, c))) as [[= -> ->] | Hne].
    + erewrite cellAt_setCell_eq by done. rewrite Hv. split; congruence.
    + by rewrite cellAt_setCell_ne.
Qed.

Section DecoderRuns.
Variable N : nat.
Variable signalTimeoutMs : Z.

(** One event on an N x N grid: no throw, the grid stays N x N, the mode
    stays, at most one method is called, and a called toggleCell has its
    cell in the grid. *)
Lemma onEvent_total (g : Game) (ev : Event) :
  wf_grid N (state g) →
  ∃ g' out,
    onEvent N signalTimeoutMs g ev = Some (g', out)
    ∧ wf_grid N (state g')
    ∧ coverVisible g' = coverVisible g
    ∧ (length out ≤ 1)%nat
    ∧ (∀ r c, ToggleCell r c ∈ out → 0 ≤ r < Z.of_nat N ∧ 0 ≤ c < Z.of_nat N)
    ∧ (coverVisible g = true → ∀ r c,
         cellAt (state g') r c = Some FixedObstacle
         ↔ cellAt (state g) r c = Some FixedObstacle).
Proof.
  intros Hwf. destruct ev as [signal timestamp |]; simpl.
  - unfold processSignal. case_decide as Hs.
    + cbv zeta.
      set (g0 := match signal9Timer g with
                 | Some _ => with_signal9Timer g None
                 | None => g
                 end).
      assert (Hg0 : state g0 = state g ∧ coverVisible g0 = coverVisible g)
        by (unfold g0; by destruct (signal9Timer g)).
      destruct Hg0 as [Hst Hcv].
      case_decide.
      * unfold resetPlayerObstacles. cbn [state with_signalBuffer].
        rewrite Hst, (resetRows_spec N _ Hwf). simpl.
        eexists _, _. split; [reflexivity |]. simpl.
        split; [by apply fmap_wf |]. split; [done |]. split; [lia |].
        split; [by intros r c [= ]%list_elem_of_singleton |].
        intros _ r c. rewrite cellAt_fmap.
        destruct (cellAt (state g) r c) as [[]|]; simpl; split; congruence.
      * eexists _, _. split; [reflexivity |]. simpl.
        rewrite Hst, Hcv. split_and!; try done; [lia | set_solver].
    + cbv zeta. cbn [signalBuffer with_signalBuffer].
      set (buf2 := filter _ (signalBuffer g) ++ [RawSignal.mk signal timestamp]).
      case_decide as Hlen.
      * destruct (drop_last_two _ Hlen) as (first & second & ->).
        case_decide.
        -- case_decide as Hrange.
           ++ rewrite !toggleCell_with_signalBuffer.
              destruct (toggleCell_is_Some N g (RawSignal.signal first - 1)
                          (RawSignal.signal second - 1)) as [g1 Hg1];
                [done | lia | lia |].
              rewrite Hg1. simpl.
              destruct (toggleCell_wf N _ _ _ _ Hwf Hg1) as [Hwf1 Hcv1].
              eexists _, _. split; [reflexivity |]. simpl.
              split; [done |]. split; [done |]. split; [lia |]. split.
              ** intros r c [= -> ->]%list_elem_of_singleton. lia.
              ** intros Hcover r c. by eapply toggleCell_play_fixed.
           ++ eexists _, _. split; [reflexivity |]. simpl.
              split_and!; try done; [lia | set_solver].
        -- eexists _, _. split; [reflexivity |]. simpl.
           split_and!; try done; [lia | set_solver].
      * eexists _, _. split; [reflexivity |]. simpl.
        split_and!; try done; [lia | set_solver].
  - destruct (signal9Timer g).
    + unfold signal9TimerCallback. case_decide; eexists _, _;
        (split; [reflexivity |]); simpl; split_and!; try done; try lia.
      intros r c [= ]%list_elem_of_singleton.
      set_solver.
    + eexists _, _. split; [reflexivity |]. simpl.
      split_and!; try done; [lia | set_solver].
Qed.
End DecoderRuns.

(** X13: on an N x N grid and for integer signal values the decoder never
    throws, whatever events arrive: every run returns, the grid stays
    N x N, the mode is unchanged, no more methods are called than events
    arrived, and every toggleCell(r, c) it calls has r and c in [0, N).
    (A fractional signal value is outside this statement: it is not an
    integer of the model, and on the source it can pass the bounds test
    and index a missing row.) *)
Theorem decoder_never_throws (N : nat) (signalTimeoutMs : Z) (evs : list Event)
    (g : Game) :
  wf_grid N (state g) →
  ∃ g' out,
    run N signalTimeoutMs g evs = Some (g', out)
    ∧ wf_grid N (state g')
    ∧ coverVisible g' = coverVisible g
    ∧ (length out ≤ length evs)%nat
    ∧ (∀ r c, ToggleCell r c ∈ out → 0 ≤ r < Z.of_nat N ∧ 0 ≤ c < Z.of_nat N).
Proof.
  revert g. induction evs as [| ev evs IH]; intros g Hwf.
  - exists g, []. simpl. split_and!; try done. intros r c Hin. by apply elem_of_nil in Hin.
  - destruct (onEvent_total N signalTimeoutMs g ev Hwf)
      as (g1 & out1 & H1 & Hwf1 & Hcv1 & Hlen1 & Hin1 & _).
    destruct (IH g1 Hwf1) as (g2 & out2 & H2 & Hwf2 & Hcv2 & Hlen2 & Hin2).
    exists g2, (out1 ++ out2). cbn [run]. rewrite H1. simpl. rewrite H2. simpl.
    split_and!; try done.
    + congruence.
    + rewrite length_app. simpl. lia.
    + intros r c [Hin | Hin]%elem_of_app; [by apply Hin1 | by apply Hin2].
Qed.

Lemma decoder_never_throws_witness :
  ∃ g' out,
    run theN theTimeout newGame
        [Signal 3 0; Signal 9 100; Signal 5 200; Signal9TimerFires; Signal 9 9000]
    = Some (g', out)
    ∧ wf_grid theN (state g')
    ∧ (length out ≤ 5)%nat.
Proof.
  destruct (decoder_never_throws theN theTimeout
              [Signal 3 0; Signal 9 100; Signal 5 200; Signal9TimerFires; Signal 9 9000]
              newGame) as (g' & out & Hrun & Hwf & _ & Hlen & _).
  - split; [reflexivity | vm_compute; repeat constructor].
  - exists g', out. split; [exact Hrun |]. split; [exact Hwf | exact Hlen].
Defined.

(** X14: in play mode no sequence of signals and timer events makes or
    removes a fixed obstacle: a cell is FixedObstacle after the run exactly
    when it was before. *)
Theorem play_mode_keeps_fixed_obstacles (N : nat) (signalTimeoutMs : Z)
    (evs : list Event) (g g' : Game) (out : list Command) :
  wf_grid N (state g) →
  coverVisible g = true →
  run N signalTimeoutMs g evs = Some (g', out) →
  ∀ r c,
    cellAt (state g') r c = Some FixedObstacle
    ↔ cellAt (state g) r c = Some FixedObstacle.
Proof.
  revert g out. induction evs as [| ev evs IH]; intros g out Hwf Hcover Hrun r c.
  - simpl in Hrun. by injection Hrun as <- _.
  - destruct (onEvent_total N signalTimeoutMs g ev Hwf)
      as (g1 & out1 & H1 & Hwf1 & Hcv1 & _ & _ & Hfixed).
    cbn [run] in Hrun. rewrite H1 in Hrun. simpl in Hrun.
    destruct (run N signalTimeoutMs g1 evs) as [[g2 out2]|] eqn:H2; [| done].
    simpl in Hrun. injection Hrun as <- _.
    rewrite (IH g1 out2 Hwf1) by (done || congruence).
    by apply Hfixed.
Qed.

Lemma play_mode_keeps_fixed_obstacles_witness :
  ∃ g' out,
    run theN theTimeout playGame [Signal 4 0; Signal 7 100; Signal 9 200; Signal 9 300]
    = Some (g', out)
    ∧ ∀ r c,
        cellAt (state g') r c = Some FixedObstacle
        ↔ cellAt (state playGame) r c = Some FixedObstacle.
Proof.
  eexists _, _. split; [vm_compute; reflexivity |].
  eapply (play_mode_keeps_fixed_obstacles theN theTimeout
            [Signal 4 0; Signal 7 100; Signal 9 200; Signal 9 300] playGame).
  - split; [reflexivity | vm_compute; repeat constructor].
  - reflexivity.
  - vm_compute. reflexivity.
Defined.

(** X15: the command track leaves the coordinate track alone: a signal 9
    or the timer callback keeps the buffered coordinate signals as they
    are, in order, and never calls toggleCell. *)
Theorem command_track_keeps_coordinates (N : nat) (signalTimeoutMs : Z)
    (g g' : Game) (ev : Event) (out : list Command) :
  (ev = Signal9TimerFires ∨ ∃ timestamp, ev = Signal 9 timestamp) →
  onEvent N signalTimeoutMs g ev = Some (g', out) →
  filter (λ item, RawSignal.signal item ≠ 9) (signalBuffer g')
  = filter (λ item, RawSignal.signal item ≠ 9) (signalBuffer g)
  ∧ (∀ r c, ToggleCell r c ∉ out).
Proof.
  intros [-> | [timestamp ->]]; simpl.
  - destruct (signal9Timer g); [| by intros [= <- <-]; split; [| set_solver]].
    unfold signal9TimerCallback. case_decide; intros [= <- <-]; simpl.
    + split; [apply filter_not9_idemp |].
      by intros r c [= ]%list_elem_of_singleton.
    + split; [done |]. intros r c Hin. by apply elem_of_nil in Hin.
  - unfold processSignal. rewrite decide_True by done. cbv zeta.
    set (g0 := match signal9Timer g with
               | Some _ => with_signal9Timer g None
               | None => g
               end).
    assert (Hbuf : signalBuffer g0 = signalBuffer g)
      by (unfold g0; by destruct (signal9Timer g)).
    case_decide.
    + destruct (resetPlayerObstacles N _) as [g1|] eqn:Hreset; [| done].
      simpl. intros [= <- <-].
      apply resetPlayerObstacles_signalBuffer in Hreset as [-> _]. simpl.
      rewrite Hbuf. split; [apply filter_not9_idemp |].
      by intros r c [= ]%list_elem_of_singleton.
    + intros [= <- <-]. simpl. split.
      * rewrite Hbuf, filter_app, filter_cons, decide_False by (simpl; tauto).
        by rewrite filter_nil, app_nil_r.
      * intros r c Hin. by apply elem_of_nil in Hin.
Qed.

Lemma command_track_keeps_coordinates_witness :
  ∃ g',
    onEvent theN theTimeout pendingGame (Signal 9 100) = Some (g', [])
    ∧ filter (λ item, RawSignal.signal item ≠ 9) (signalBuffer g')
      = filter (λ item, RawSignal.signal item ≠ 9) (signalBuffer pendingGame).
Proof.
  eexists. split; [vm_compute; reflexivity |].
  eapply (command_track_keeps_coordinates theN theTimeout pendingGame _ (Signal 9 100)).
  - right. exists 100. reflexivity.
  - vm_compute. reflexivity.
Defined.

(** X16: a coordinate signal stamped earlier than the one buffered (an
    out-of-order arrival) forms no pair: nothing is called, and the buffer
    keeps only the signal that arrived last. *)
Theorem out_of_order_pair_collapses (N : nat) (signalTimeoutMs : Z) (g : Game)
    (first : RawSignal.t) (signal timestamp : Z) :
  0 ≤ signalTimeoutMs →
  signal ≠ 9 →
  filter (λ item, RawSignal.signal item ≠ 9) (signalBuffer g) = [first] →
  timestamp < RawSignal.timestamp first →
  processSignal N signalTimeoutMs g signal timestamp
  = Some (with_signalBuffer g [RawSignal.mk signal timestamp], []).
Proof.
  intros Htimeout Hsignal Hbuf Hearly.
  assert (Hfirst : RawSignal.signal first ≠ 9).
  { assert (first ∈ filter (λ item, RawSignal.signal item ≠ 9) (signalBuffer g)) as Hin
      by (rewrite Hbuf; by apply list_elem_of_singleton).
    by apply list_elem_of_filter in Hin as [? _]. }
  assert (Hpruned : filter (λ item, timestamp - RawSignal.timestamp item ≤ signalTimeoutMs
                                    ∧ RawSignal.signal item ≠ 9) (signalBuffer g)
                    = [first]).
  { rewrite <- list_filter_filter, Hbuf. by rewrite filter_cons_True by lia. }
  assert (Hcoord : filter (λ item, RawSignal.signal item ≠ 9)
                     ([first] ++ [RawSignal.mk signal timestamp])
                   = [first; RawSignal.mk signal timestamp]).
  { simpl. rewrite filter_cons_True by done.
    rewrite filter_cons_True by done. done. }
  assert (Hnines : filter (λ item, RawSignal.signal item = 9)
                     ([first] ++ [RawSignal.mk signal timestamp]) = []).
  { simpl. rewrite filter_cons_False by done.
    rewrite filter_cons_False by done. done. }
  unfold processSignal. rewrite (decide_False (P := signal = 9)) by done.
  cbv zeta. cbn [signalBuffer with_signalBuffer].
  rewrite Hpruned, Hcoord.
  cbn [length Nat.sub drop RawSignal.signal RawSignal.timestamp].
  case_decide; [| lia]. case_decide; [lia |].
  cbn [signalBuffer with_signalBuffer]. by rewrite Hnines.
Qed.

Lemma out_of_order_pair_collapses_witness :
  processSignal theN theTimeout
                (mkGame initialState false [RawSignal.mk 3 1000] None 0) 5 900
  = Some (mkGame initialState false [RawSignal.mk 5 900] None 0, []).
Proof.
  apply (out_of_order_pair_collapses theN theTimeout
           (mkGame initialState false [RawSignal.mk 3 1000] None 0)
           (RawSignal.mk 3 1000) 5 900).
  - vm_compute. discriminate.
  - discriminate.
  - reflexivity.
  - reflexivity.
Defined.

(** X17: a pair within the window whose row or column falls outside
    [0, N) calls nothing and empties the buffer. *)
Theorem invalid_pair_is_discarded (N : nat) (signalTimeoutMs : Z) (g : Game)
    (first : RawSignal.t) (signal timestamp : Z) :
  signal ≠ 9 →
  filter (λ item, RawSignal.signal item ≠ 9) (signalBuffer g) = [first] →
  0 ≤ timestamp - RawSignal.timestamp first ≤ signalTimeoutMs →
  ¬ (0 ≤ RawSignal.signal first - 1 < Z.of_nat N ∧ 0 ≤ signal - 1 < Z.of_nat N) →
  processSignal N signalTimeoutMs g signal timestamp
  = Some (with_signalBuffer g [], []).
Proof.
  intros Hsignal Hbuf Hgap Hinvalid.
  assert (Hfirst : RawSignal.signal first ≠ 9).
  { assert (first ∈ filter (λ item, RawSignal.signal item ≠ 9) (signalBuffer g)) as Hin
      by (rewrite Hbuf; by apply list_elem_of_singleton).
    by apply list_elem_of_filter in Hin as [? _]. }
  assert (Hpruned : filter (λ item, timestamp - RawSignal.timestamp item ≤ signalTimeoutMs
                                    ∧ RawSignal.signal item ≠ 9) (signalBuffer g)
                    = [first]).
  { rewrite <- list_filter_filter, Hbuf. by rewrite filter_cons_True by lia. }
  assert (Hcoord : filter (λ item, RawSignal.signal item ≠ 9)
                     ([first] ++ [RawSignal.mk signal timestamp])
                   = [first; RawSignal.mk signal timestamp]).
  { simpl. rewrite filter_cons_True by done.
    rewrite filter_cons_True by done. done. }
  assert (Hnines : filter (λ item, RawSignal.signal item = 9)
                     ([first] ++ [RawSignal.mk signal timestamp]) = []).
  { simpl. rewrite filter_cons_False by done.
    rewrite filter_cons_False by done. done. }
  unfold processSignal. rewrite (decide_False (P := signal = 9)) by done.
  cbv zeta. cbn [signalBuffer with_signalBuffer].
  rewrite Hpruned, Hcoord.
  cbn [length Nat.sub drop RawSignal.signal RawSignal.timestamp].
  case_decide; [| lia]. case_decide; [| lia]. case_decide; [lia |].
  cbn [signalBuffer with_signalBuffer]. by rewrite Hnines.
Qed.

Lemma invalid_pair_is_discarded_witness :
  processSignal 5 theTimeout
                (mkGame (emptyGrid 5) true [RawSignal.mk 3 1000] None 0) 8 1200
  = Some (mkGame (emptyGrid 5) true [] None 0, []).
Proof.
  apply (invalid_pair_is_discarded 5 theTimeout
           (mkGame (emptyGrid 5) true [RawSignal.mk 3 1000] None 0)
           (RawSignal.mk 3 1000) 8 1200).
  - discriminate.
  - reflexivity.
  - vm_compute; split; discriminate.
  - simpl. lia.
Defined.

(** X18: a 9 arriving while no 9 is buffered, followed by its timer with
    nothing in between, calls fireRay() once and nothing else, and leaves
    the buffer and the grid as they were with no timer pending. *)
Theorem single_9_then_timer_fires (N : nat) (signalTimeoutMs : Z) (g : Game) (t0 : Z) :
  filter (λ item, RawSignal.signal item = 9) (signalBuffer g) = [] →
  ∃ g',
    run N signalTimeoutMs g [Signal 9 t0; Signal9TimerFires] = Some (g', [FireRay])
    ∧ signalBuffer g' = signalBuffer g
    ∧ signal9Timer g' = None
    ∧ state g' = state g.
Proof.
  intros Hno9. rewrite (single_9_fires N signalTimeoutMs g t0 Hno9).
  eexists. split; [reflexivity |]. done.
Qed.

Lemma single_9_then_timer_fires_witness :
  ∃ g',
    run theN theTimeout pendingGame [Signal 9 500; Signal9TimerFires]
    = Some (g', [FireRay])
    ∧ signalBuffer g' = signalBuffer pendingGame
    ∧ signal9Timer g' = None
    ∧ state g' = state pendingGame.
Proof.
  apply (single_9_then_timer_fires theN theTimeout pendingGame 500).
  reflexivity.
Defined.

(** X19: a 9 arriving while a 9 stamped no more than the window earlier is
    buffered calls resetPlayerObstacles() and nothing else: the grid loses
    its player obstacles, every 9 leaves the buffer, no timer stays
    pending, and a timer event afterwards calls nothing. *)
Theorem second_9_resets (N : nat) (signalTimeoutMs : Z) (g : Game) (t1 : Z)
    (earlier : RawSignal.t) :
  wf_grid N (state g) →
  earlier ∈ signalBuffer g →
  RawSignal.signal earlier = 9 →
  t1 - RawSignal.timestamp earlier ≤ signalTimeoutMs →
  ∃ g',
    processSignal N signalTimeoutMs g 9 t1 = Some (g', [ResetObstacles])
    ∧ state g' = map (map resetCell) (state g)
    ∧ signal9Timer g' = None
    ∧ signalBuffer g' = filter (λ item, RawSignal.signal item ≠ 9) (signalBuffer g)
    ∧ onEvent N signalTimeoutMs g' Signal9TimerFires = Some (g', []).
Proof.
  intros Hwf Hel H9 Hrecent.
  destruct (double_9_resets N signalTimeoutMs g t1 earlier Hwf Hel H9 Hrecent)
    as (g' & Hp & Htm & Hbuf & Hfire).
  exists g'. split_and!; try done.
  revert Hp. unfold processSignal. rewrite decide_True by done. cbv zeta.
  case_decide; [| done].
  unfold resetPlayerObstacles. cbn [state with_signalBuffer].
  assert (state (match signal9Timer g with
                 | Some _ => with_signal9Timer g None
                 | None => g
                 end) = state g) as -> by (by destruct (signal9Timer g)).
  rewrite (resetRows_spec N _ Hwf). simpl. by intros [= <-].
Qed.

Lemma second_9_resets_witness :
  ∃ g',
    processSignal theN theTimeout
      (mkGame (state playGame) true [RawSignal.mk 9 0] (Some 3000) 0) 9 500
    = Some (g', [ResetObstacles])
    ∧ state g' = initialState
    ∧ signal9Timer g' = None
    ∧ signalBuffer g' = [].
Proof.
  destruct (second_9_resets theN theTimeout
              (mkGame (state playGame) true [RawSignal.mk 9 0] (Some 3000) 0) 500
              (RawSignal.mk 9 0)) as (g' & Hp & Hst & Htm & Hbuf & _).
  - split; [reflexivity | vm_compute; repeat constructor].
  - by apply list_elem_of_singleton.
  - reflexivity.
  - vm_compute. discriminate.
  - exists g'. split; [exact Hp |]. split; [rewrite Hst; reflexivity |].
    split; [exact Htm | rewrite Hbuf; reflexivity].
Defined.

(** X20: the buffer never holds more than one coordinate signal between
    events: if it holds at most one before a run, it holds at most one
    after it. *)
Theorem coordinate_track_bounded (N : nat) (signalTimeoutMs : Z) (evs : list Event)
    (g g' : Game) (out : list Command) :
  (length (filter (λ item, RawSignal.signal item ≠ 9%Z) (signalBuffer g)) ≤ 1)%nat →
  run N signalTimeoutMs g evs = Some (g', out) →
  (length (filter (λ item, RawSignal.signal item ≠ 9%Z) (signalBuffer g')) ≤ 1)%nat.
Proof.
  revert g out. induction evs as [| ev evs IH]; intros g out Hlen Hrun.
  - simpl in Hrun. by injection Hrun as <- _.
  - cbn [run] in Hrun.
    destruct (onEvent N signalTimeoutMs g ev) as [[g1 out1]|] eqn:H1; [| done].
    simpl in Hrun.
    destruct (run N signalTimeoutMs g1 evs) as [[g2 out2]|] eqn:H2; [| done].
    simpl in Hrun. injection Hrun as <- _.
    apply (IH g1 out2); [| done].
    by eapply coordinate_track_at_most_one.
Qed.

Lemma coordinate_track_bounded_witness :
  ∃ g' out,
    run theN theTimeout newGame [Signal 3 0; Signal 9 100; Signal 5 7000; Signal 2 7100; Signal 6 7200]
    = Some (g', out)
    ∧ (length (filter (λ item, RawSignal.signal item ≠ 9%Z) (signalBuffer g')) ≤ 1)%nat.
Proof.
  eexists _, _. split; [vm_compute; reflexivity |].
  eapply (coordinate_track_bounded theN theTimeout
            [Signal 3 0; Signal 9 100; Signal 5 7000; Signal 2 7100; Signal 6 7200]
            newGame).
  - simpl. lia.
  - vm_compute. reflexivity.
Defined.

(** X21: once [processSignal] has handled a signal other than 9, the
    buffer holds no 9 at all, whatever it held before: the pruning step
    keeps only entries that are within the window and are not 9. *)
Theorem coordinate_signal_clears_command_track (N : nat) (signalTimeoutMs : Z)
    (g g' : Game) (signal timestamp : Z) (out : list Command) :
  signal ≠ 9 →
  processSignal N signalTimeoutMs g signal timestamp = Some (g', out) →
  ∀ item, item ∈ signalBuffer g' → RawSignal.signal item ≠ 9.
Proof.
  intros Hs Hp item Hin H9.
  pose proof (processSignal_coordinate_drops_9 N signalTimeoutMs g g' signal timestamp
                out Hs Hp) as Hnil.
  assert (item ∈ filter (λ item, RawSignal.signal item = 9) (signalBuffer g')) as Hf
    by (by apply list_elem_of_filter).
  rewrite Hnil in Hf. by apply elem_of_nil in Hf.
Qed.

Lemma coordinate_signal_clears_command_track_witness :
  ∃ g',
    processSignal theN theTimeout
      (mkGame initialState true [RawSignal.mk 9 0] (Some 3000) 0) 3 100
    = Some (g', [])
    ∧ ∀ item, item ∈ signalBuffer g' → RawSignal.signal item ≠ 9.
Proof.
  eexists. split; [vm_compute; reflexivity |].
  eapply (coordinate_signal_clears_command_track theN theTimeout
            (mkGame initialState true [RawSignal.mk 9 0] (Some 3000) 0) _ 3 100).
  - discriminate.
  - vm_compute. reflexivity.
Defined.

(** * The mode switch and the countdown *)

Lemma timerTick_running (k : Clock) (n : nat) :
  timerInterval k = true →
  Z.of_nat n < timerSeconds k →
  Nat.iter n timerTick k
  = mkClock (timerSeconds k - Z.of_nat n) (timerInitialSeconds k) true (gameWon k)
            (startTime k) (failureModal k).
Proof.
  intros Hrun. induction n as [| n IH]; intros Hn.
  - simpl. rewrite Z.sub_0_r. destruct k; simpl in *; by subst.
  - rewrite Nat.iter_succ, IH by lia.
    unfold timerTick. cbn [timerInterval timerSeconds timerInitialSeconds gameWon
                             startTime failureModal].
    rewrite decide_False by lia. f_equal. lia.
Qed.

Lemma timerTick_stopped (k : Clock) (n : nat) :
  timerInterval k = false → Nat.iter n timerTick k = k.
Proof.
  intros Hstop. induction n as [| n IH]; [done |].
  rewrite Nat.iter_succ, IH. unfold timerTick. by rewrite Hstop.
Qed.

Lemma timerTick_expires (k : Clock) :
  timerInterval k = true → timerSeconds k ≤ 1 →
  timerTick k
  = mkClock (timerSeconds k - 1) (timerInitialSeconds k) false (gameWon k)
            (startTime k) (negb (gameWon k) || failureModal k).
Proof.
  intros Hrun Hlast. unfold timerTick. rewrite Hrun.
  cbn [timerInterval timerSeconds timerInitialSeconds gameWon startTime failureModal].
  rewrite decide_True by lia. unfold stopTimer. simpl.
  by destruct (gameWon k).
Qed.

(** X22: entering play mode starts a countdown from [timerInitialSeconds]:
    after n ticks short of it the clock shows that many seconds less and
    still runs; the tick that reaches zero stops the timer and shows the
    failure modal, the game not having been won; later ticks change
    nothing. *)
Theorem countdown_expires (now : Z) (g : Game) (k : Clock) (n : nat) :
  coverVisible g = false →
  1 ≤ timerInitialSeconds k →
  let '(g', k') := toggleCover now g k in
  coverVisible g' = true
  ∧ fireRayCount g' = 0%nat
  ∧ state g' = state g
  ∧ (Z.of_nat n < timerInitialSeconds k →
     timerSeconds (Nat.iter n timerTick k') = timerInitialSeconds k - Z.of_nat n
     ∧ timerInterval (Nat.iter n timerTick k') = true
     ∧ failureModal (Nat.iter n timerTick k') = failureModal k)
  ∧ (timerInitialSeconds k ≤ Z.of_nat n →
     timerSeconds (Nat.iter n timerTick k') = 0
     ∧ timerInterval (Nat.iter n timerTick k') = false
     ∧ failureModal (Nat.iter n timerTick k') = true).
Proof.
  intros Hcover Hinit. unfold toggleCover, startTimer. simpl. rewrite Hcover. simpl.
  split_and!; try done.
  - intros Hn. rewrite timerTick_running by (simpl; done || lia). done.
  - intros Hn.
    destruct (Z_of_nat_complete (timerInitialSeconds k)) as [T HT]; [lia |].
    replace n with ((n - T) + S (T - 1))%nat by lia.
    rewrite Nat.iter_add, Nat.iter_succ.
    rewrite (timerTick_running _ (T - 1)) by (simpl; done || lia).
    rewrite timerTick_expires by (simpl; done || lia).
    rewrite timerTick_stopped by done. simpl. split_and!; try done. lia.
Qed.

Lemma countdown_expires_witness :
  let '(g', k') := toggleCover 1000 newGame newClock in
  coverVisible g' = true
  ∧ timerSeconds (Nat.iter 299 timerTick k') = 1
  ∧ timerInterval (Nat.iter 299 timerTick k') = true
  ∧ timerInterval (Nat.iter 300 timerTick k') = false
  ∧ failureModal (Nat.iter 300 timerTick k') = true.
Proof.
  pose proof (countdown_expires 1000 newGame newClock 299 eq_refl) as H299.
  pose proof (countdown_expires 1000 newGame newClock 300 eq_refl) as H300.
  destruct (toggleCover 1000 newGame newClock) as [g' k'].
  destruct H299 as (Hcv & _ & _ & Hrun & _); [simpl; lia |].
  destruct H300 as (_ & _ & _ & _ & Hend); [simpl; lia |].
  destruct Hrun as (Hs & Hi & _); [simpl; lia |].
  destruct Hend as (_ & Hi' & Hf); [simpl; lia |].
  split; [exact Hcv |]. split; [rewrite Hs; reflexivity |].
  split; [exact Hi |]. split; [exact Hi' | exact Hf].
Defined.

(** X23: a win stops the countdown for good: after [fireRay()] has seen a
    WIN the timer is off and [gameWon] is set, and no number of ticks
    shows the failure modal or changes the clock. *)
Theorem win_stops_countdown (k : Clock) (n : nat) :
  timerInterval (fireRayOutcome WIN k) = false
  ∧ gameWon (fireRayOutcome WIN k) = true
  ∧ timerSeconds (fireRayOutcome WIN k) = timerSeconds k
  ∧ Nat.iter n timerTick (fireRayOutcome WIN k) = fireRayOutcome WIN k
  ∧ failureModal (Nat.iter n timerTick (fireRayOutcome WIN k)) = failureModal k.
Proof.
  assert (Hoff : timerInterval (fireRayOutcome WIN k) = false).
  { unfold fireRayOutcome, stopTimer. simpl. by destruct (timerInterval k). }
  rewrite (timerTick_stopped _ n Hoff).
  split_and!; try done; unfold fireRayOutcome, stopTimer; simpl;
    by destruct (timerInterval k).
Qed.

(** X24: switching the mode twice comes back to the mode it started in
    with the grid, the signal buffer and the pending-9 timer untouched; in
    edit mode the countdown is off, reset to its initial value, and the
    fire count is zero. *)
Theorem toggleCover_twice (now1 now2 : Z) (g : Game) (k : Clock) :
  coverVisible g = false →
  let '(g1, k1) := toggleCover now1 g k in
  let '(g2, k2) := toggleCover now2 g1 k1 in
  coverVisible g1 = true
  ∧ g2 = with_fireRayCount g 0
  ∧ timerInterval k2 = false
  ∧ timerSeconds k2 = timerInitialSeconds k
  ∧ gameWon k2 = false
  ∧ startTime k2 = None.
Proof.
  intros Hcover. unfold toggleCover, startTimer, resetTimer, stopTimer. simpl.
  rewrite Hcover. simpl. split_and!; try done.
  destruct g; simpl in *; by subst.
Qed.

Lemma toggleCover_twice_witness :
  let '(g1, k1) := toggleCover 1000 newGame newClock in
  let '(g2, k2) := toggleCover 2000 g1 k1 in
  coverVisible g1 = true ∧ g2 = with_fireRayCount newGame 0.
Proof.
  pose proof (toggleCover_twice 1000 2000 newGame newClock eq_refl) as H.
  destruct (toggleCover 1000 newGame newClock) as [g1 k1].
  destruct (toggleCover 2000 g1 k1) as [g2 k2].
  destruct H as (H1 & H2 & _). split; [exact H1 | exact H2].
Defined.
